(** * Hinglish translator: the string pipeline of [hinglish_translator.py]

    A shallow embedding of class [HinglishTranslator]: the script detector,
    the sentence splitter, the term preservation filter (two [re.sub] passes
    and the [str.replace] loop that undoes them) and [translate], which
    drives the three [GoogleTranslator] instances.

    A Python [str] is a sequence of code points and is modelled as
    [list Z].  The translators are an external service: a state-passing
    oracle that either returns a text or raises. *)

From Stdlib Require Import String Ascii.
From Stdlib Require Import ZArith List Bool Arith Lia.
From Stdlib Require DecimalNat.
Import ListNotations.
Open Scope Z_scope.

(** ** Texts *)

Definition text := list Z.

(** Source literals are written as UTF-8 strings and decoded to code points. *)
Definition bytes_of (s : string) : list Z :=
  map (fun a => Z.of_nat (nat_of_ascii a)) (list_ascii_of_string s).

Fixpoint decode_utf8 (bs : list Z) : text :=
  match bs with
  | [] => []
  | b0 :: r0 =>
      if b0 <? 128 then b0 :: decode_utf8 r0
      else match r0 with
      | [] => []
      | b1 :: r1 =>
          if b0 <? 224 then
            Z.lor (Z.shiftl (Z.land b0 31) 6) (Z.land b1 63) :: decode_utf8 r1
          else match r1 with
          | [] => []
          | b2 :: r2 =>
              if b0 <? 240 then
                Z.lor (Z.shiftl (Z.land b0 15) 12)
                  (Z.lor (Z.shiftl (Z.land b1 63) 6) (Z.land b2 63))
                  :: decode_utf8 r2
              else match r2 with
              | [] => []
              | b3 :: r3 =>
                  Z.lor (Z.shiftl (Z.land b0 7) 18)
                    (Z.lor (Z.shiftl (Z.land b1 63) 12)
                       (Z.lor (Z.shiftl (Z.land b2 63) 6) (Z.land b3 63)))
                    :: decode_utf8 r3
              end
          end
      end
  end.

Definition py (s : string) : text := decode_utf8 (bytes_of s).

Definition in_range (lo hi c : Z) : bool := (lo <=? c) && (c <=? hi).

(** [c in s] for a one-character [c]. *)
Definition char_in (c : Z) (s : text) : bool := existsb (Z.eqb c) s.
Arguments char_in _ _ : simpl never.

Fixpoint starts_with (p s : text) : bool :=
  match p, s with
  | [], _ => true
  | x :: p', y :: s' => (x =? y) && starts_with p' s'
  | _ :: _, [] => false
  end.

(** [p in s] for texts: [p] starts at some position of [s]. *)
Fixpoint occurs (p s : text) : bool :=
  starts_with p s || match s with [] => false | _ :: s' => occurs p s' end.

(** ** Character classes *)

Definition ascii_upper (c : Z) : bool := in_range 65 90 c.
Definition ascii_lower (c : Z) : bool := in_range 97 122 c.
Definition ascii_letter (c : Z) : bool := ascii_lower c || ascii_upper c.
Definition ascii_digit (c : Z) : bool := in_range 48 57 c.

(** [str.isspace] on one code point, the set [str.strip()] removes. *)
Definition isspace (c : Z) : bool :=
  in_range 9 13 c || in_range 28 32 c || (c =? 133) || (c =? 160)
  || (c =? 5760) || in_range 8192 8202 c || (c =? 8232) || (c =? 8233)
  || (c =? 8239) || (c =? 8287) || (c =? 12288).

(** What the Unicode database says of a code point above ASCII, as far as
    [\w] and [\d] of a [str] pattern look at it: a decimal digit, another
    alphanumeric, or neither. *)
Inductive uni_class : Type := UDecimal | UAlnum | UOther.

(** ** Regular expressions: a backtracking matcher

    The fragment the three patterns of the class use: [\b], a character
    class, concatenation and the greedy star. *)

Inductive regex : Type :=
| Bnd : regex
| Cls : (Z -> bool) -> regex
| Cat : regex -> regex -> regex
| Star : regex -> regex.

Definition Plus (r : regex) : regex := Cat r (Star r).

Definition is_some {A} (o : option A) : bool :=
  match o with Some _ => true | None => false end.

Section Unicode.

(** The Unicode database, for code points from 128 on. *)
Variable ucd : Z -> uni_class.

(** [\d]: a decimal digit of any script. *)
Definition is_digit (c : Z) : bool :=
  if c <? 128 then ascii_digit c
  else match ucd c with UDecimal => true | _ => false end.

(** [\w]: alphanumeric or underscore. *)
Definition is_word (c : Z) : bool :=
  if c <? 128 then ascii_letter c || ascii_digit c || (c =? 95)
  else match ucd c with UOther => false | _ => true end.

Definition word_at (o : option Z) : bool :=
  match o with Some c => is_word c | None => false end.

(** [\b] between the character before the position and the one at it; the
    two ends of the text count as non-word. *)
Definition at_boundary (prev : option Z) (s : text) : bool :=
  xorb (word_at prev) (word_at (hd_error s)).

(** The greedy star of the matcher: take one more iteration [step] if it
    consumes a character and the rest then matches, else go on with [k].
    An iteration has to consume, so the length of the text bounds their
    number, which is the [fuel] the matcher gives. *)
Fixpoint star_loop
    (step : option Z -> text -> (option Z -> text -> option text) -> option text)
    (k : option Z -> text -> option text)
    (fuel : nat) (prev : option Z) (s : text) {struct fuel} : option text :=
  match fuel with
  | O => k prev s
  | Datatypes.S fuel' =>
      match step prev s
              (fun prev' s' =>
                 if (length s' <? length s)%nat
                 then star_loop step k fuel' prev' s' else None) with
      | Some rest => Some rest
      | None => k prev s
      end
  end.

(** [run r prev s k]: match [r] at the front of [s], [prev] being the
    character before it, then continue with [k]; alternatives are tried in
    the matcher's order, the first that succeeds wins. *)
Fixpoint run (r : regex) (prev : option Z) (s : text)
    (k : option Z -> text -> option text) {struct r} : option text :=
  match r with
  | Bnd => if at_boundary prev s then k prev s else None
  | Cls p =>
      match s with
      | c :: s' => if p c then k (Some c) s' else None
      | [] => None
      end
  | Cat r1 r2 => run r1 prev s (fun prev' s' => run r2 prev' s' k)
  | Star r1 => star_loop (run r1) k (length s) prev s
  end.

(** The match of [r] that starts here, as the text left after it. *)
Definition match_at (r : regex) (prev : option Z) (s : text) : option text :=
  run r prev s (fun _ rest => Some rest).

Definition matched (s rest : text) : text :=
  firstn (length s - length rest) s.

(** [pattern.search(text)]: the first position with a match. *)
Fixpoint search_from (r : regex) (prev : option Z) (s : text) : option text :=
  match match_at r prev s with
  | Some rest => Some (matched s rest)
  | None =>
      match s with
      | [] => None
      | c :: s' => search_from r (Some c) s'
      end
  end.

Definition re_search (r : regex) (s : text) : option text :=
  search_from r None s.

(** [re.sub(pattern, repl, text)] with a callable [repl] that works on a state
    [St]: matches are found left to right and do not overlap; [skip] counts
    the characters of the current match still to pass over.  The patterns
    of this class match no empty text; an empty match is left alone. *)
Fixpoint sub_from {St : Type} (r : regex) (repl : text -> St -> text * St)
    (prev : option Z) (s : text) (skip : nat) (st : St) : text * St :=
  match s with
  | [] => ([], st)
  | c :: s' =>
      match skip with
      | S n => sub_from r repl (Some c) s' n st
      | O =>
          match match_at r prev s with
          | Some rest =>
              match (length s - length rest)%nat with
              | S n =>
                  let (out, st1) := repl (matched s rest) st in
                  let (tl, st2) := sub_from r repl (Some c) s' n st1 in
                  (out ++ tl, st2)
              | O =>
                  let (tl, st1) := sub_from r repl (Some c) s' O st in
                  (c :: tl, st1)
              end
          | None =>
              let (tl, st1) := sub_from r repl (Some c) s' O st in
              (c :: tl, st1)
          end
      end
  end.

Definition re_sub {St : Type} (r : regex) (repl : text -> St -> text * St)
    (s : text) (st : St) : text * St :=
  sub_from r repl None s O st.

(** ** The class *)

(** [re.compile(r'[ऀ-ॿ]')] *)
Definition hindi_pattern : regex := Cls (in_range 2304 2431).

(** [re.compile(r'[a-zA-Z]')] *)
Definition english_pattern : regex := Cls ascii_letter.

Definition detect_language_mix (t : text) : bool * bool :=
  let has_hindi := is_some (re_search hindi_pattern t) in
  let has_english := is_some (re_search english_pattern t) in
  (has_hindi, has_english).

Definition terminators : text := py ".!?‡•§".

Definition split_step (st : list text * text) (char : Z) : list text * text :=
  let (sentences, current) := st in
  let current := current ++ [char] in
  if char_in char terminators then (sentences ++ [current], [])
  else (sentences, current).

Definition split_sentences (t : text) : list text :=
  let (sentences, current) := fold_left split_step t ([], []) in
  match current with
  | [] => sentences
  | _ :: _ => sentences ++ [current]
  end.

(** [str(n)] of a length. *)
Fixpoint uint_digits (u : Decimal.uint) : text :=
  match u with
  | Decimal.Nil => []
  | Decimal.D0 u' => 48 :: uint_digits u'
  | Decimal.D1 u' => 49 :: uint_digits u'
  | Decimal.D2 u' => 50 :: uint_digits u'
  | Decimal.D3 u' => 51 :: uint_digits u'
  | Decimal.D4 u' => 52 :: uint_digits u'
  | Decimal.D5 u' => 53 :: uint_digits u'
  | Decimal.D6 u' => 54 :: uint_digits u'
  | Decimal.D7 u' => 55 :: uint_digits u'
  | Decimal.D8 u' => 56 :: uint_digits u'
  | Decimal.D9 u' => 57 :: uint_digits u'
  end.

Definition str_of_nat (n : nat) : text := uint_digits (Nat.to_uint n).

Definition PRESERVED_ : text := py "PRESERVED_".

(** [f"PRESERVED_{n}"] *)
Definition marker (n : nat) : text := PRESERVED_ ++ str_of_nat n.

(** The callback of both passes; [preserved] is the list it appends to. *)
Definition _preserve_term (term : text) (preserved : list text)
  : text * list text :=
  let marker := marker (length preserved) in
  (marker, preserved ++ [term]).

(** [r'\b[A-Z][a-zA-Z]*\b'] *)
Definition proper_noun_pattern : regex :=
  Cat Bnd (Cat (Cls ascii_upper) (Cat (Star (Cls ascii_letter)) Bnd)).

(** [[-/.]] *)
Definition is_sep (c : Z) : bool := char_in c (py "-/.").

(** [r'\b\d+(?:[-/.]\d+)*\b'] *)
Definition number_pattern : regex :=
  Cat Bnd
    (Cat (Plus (Cls is_digit))
       (Cat (Star (Cat (Cls is_sep) (Plus (Cls is_digit)))) Bnd)).

Definition preserve_special_terms (t : text) : text * list text :=
  let preserved := [] in
  let (t1, preserved1) := re_sub proper_noun_pattern _preserve_term t preserved in
  let (t2, preserved2) := re_sub number_pattern _preserve_term t1 preserved1 in
  (t2, preserved2).

End Unicode.

(** [str.replace(old, new)]: every occurrence, left to right, without
    overlap; [skip] counts the characters of the occurrence just replaced. *)
Fixpoint replace_from (old new s : text) (skip : nat) : text :=
  match s with
  | [] => []
  | c :: s' =>
      match skip with
      | S n => replace_from old new s' n
      | O =>
          if starts_with old s
          then new ++ replace_from old new s' (length old - 1)
          else c :: replace_from old new s' O
      end
  end.

Definition replace (old new s : text) : text :=
  match old with
  | [] => new ++ flat_map (fun c => c :: new) s
  | _ :: _ => replace_from old new s O
  end.

Definition enumerate {A} (l : list A) : list (nat * A) :=
  combine (seq 0 (length l)) l.

Definition restore_preserved_terms (t : text) (preserved : list text) : text :=
  fold_left (fun t it => replace (marker (fst it)) (snd it) t)
    (enumerate preserved) t.

(** [str.strip()] *)
Fixpoint lstrip (s : text) : text :=
  match s with
  | [] => []
  | c :: s' => if isspace c then lstrip s' else s
  end.

Definition rstrip (s : text) : text := rev (lstrip (rev s)).

Definition strip (s : text) : text := lstrip (rstrip s).

Definition is_empty (s : text) : bool :=
  match s with [] => true | _ :: _ => false end.

(** [sep.join(parts)] *)
Fixpoint join (sep : text) (parts : list text) : text :=
  match parts with
  | [] => []
  | [p] => p
  | p :: rest => p ++ sep ++ join sep rest
  end.

(** ** The external translation service and the effects of [translate] *)

Inductive lang : Type := auto | hi | en.

(** A [GoogleTranslator(source=..., target=...)] instance. *)
Record GoogleTranslator : Type := { source : lang; target : lang }.

(** What a [raise] carries.  [Exception m] is an instance of [Exception],
    as the errors of the service are (its request, HTTP and translation
    errors); [BaseException m] is an instance of a class outside
    [Exception], as [KeyboardInterrupt] and [SystemExit] are.  [m] is its
    [str(e)]. *)
Inductive exn : Type :=
| Exception (m : text)
| BaseException (m : text).

(** [str(e)] *)
Definition message (e : exn) : text :=
  match e with Exception m | BaseException m => m end.

(** [isinstance(e, Exception)] *)
Definition is_Exception (e : exn) : bool :=
  match e with Exception _ => true | BaseException _ => false end.

Inductive outcome (A : Type) : Type :=
| Returns : A -> outcome A
| Raises : exn -> outcome A.
Arguments Returns {A} _.
Arguments Raises {A} _.

(** One request to the service, with what came back. *)
Record call : Type := { via : GoogleTranslator; sent : text; got : outcome text }.

Section Service.

(** The state of the remote service and its one operation,
    [GoogleTranslator.translate]. *)
Variable S : Type.
Variable service : GoogleTranslator -> text -> S -> outcome text * S.

(** What a run can touch: the service, the requests made so far, and the
    messages shown with [st.error]. *)
Record world : Type := { remote : S; calls : list call; shown : list text }.

Definition M (A : Type) : Type := world -> outcome A * world.

Definition ret {A} (a : A) : M A := fun w => (Returns a, w).

Definition bind {A B} (m : M A) (f : A -> M B) : M B :=
  fun w =>
    match m w with
    | (Returns a, w') => f a w'
    | (Raises e, w') => (Raises e, w')
    end.

(** [try: body except Exception as e: handler(e)]: what is raised and is
    not an instance of [Exception] goes on to the caller. *)
Definition try_except {A} (body : M A) (handler : exn -> M A) : M A :=
  fun w =>
    match body w with
    | (Returns a, w') => (Returns a, w')
    | (Raises e, w') =>
        if is_Exception e then handler e w' else (Raises e, w')
    end.

Notation "x <- m ;; k" := (bind m (fun x => k))
  (at level 61, m at next level, right associativity).

(** [g.translate(t)] *)
Definition translate_with (g : GoogleTranslator) (t : text) : M text :=
  fun w =>
    let (o, s') := service g t (remote w) in
    (o, {| remote := s';
           calls := calls w ++ [{| via := g; sent := t; got := o |}];
           shown := shown w |}).

(** [st.error(msg)] *)
Definition st_error (msg : text) : M unit :=
  fun w =>
    (Returns tt,
     {| remote := remote w; calls := calls w; shown := shown w ++ [msg] |}).

Variable ucd : Z -> uni_class.

(** The three instances [__init__] builds. *)
Definition hindi_translator : GoogleTranslator := {| source := auto; target := hi |}.
Definition english_translator : GoogleTranslator := {| source := hi; target := en |}.
Definition auto_translator : GoogleTranslator := {| source := auto; target := en |}.

(** The [if]/[elif]/[else] of the loop body: one sentence to its result. *)
Definition route (sentence : text) : M text :=
  let (has_hindi, has_english) := detect_language_mix ucd sentence in
  if has_hindi && has_english then
    hindi_result <- translate_with hindi_translator sentence ;;
    translate_with english_translator hindi_result
  else if has_hindi then
    translate_with english_translator sentence
  else
    translate_with auto_translator sentence.

(** The [for] loop; [translated_parts] is the list it appends to. *)
Fixpoint translate_loop (sentences : list text) (translated_parts : list text)
  : M (list text) :=
  match sentences with
  | [] => ret translated_parts
  | sentence :: rest =>
      if is_empty (strip sentence) then translate_loop rest translated_parts
      else
        result <- route sentence ;;
        translate_loop rest (translated_parts ++ [result])
  end.

Definition failure_message : text := py "Translation failed. Please try again.".

(** The body of the [try]. *)
Definition translate_body (t : text) : M text :=
  if is_empty (strip t) then ret []
  else
    let sentences := split_sentences t in
    translated_parts <- translate_loop sentences [] ;;
    ret (join (py " ") translated_parts).

Definition translate (t : text) : M text :=
  try_except (translate_body t)
    (fun e =>
       _ <- st_error (py "Translation error: " ++ message e) ;;
       ret failure_message).

End Service.

(** * Vocabulary of the properties *)

(** ** Sentence spans *)

Definition is_terminator (c : Z) : Prop := char_in c terminators = true.

(** A span the splitter closed: it ends with its terminator and holds no
    other one. *)
Definition closed_span (s : text) : Prop :=
  exists body c,
    s = body ++ [c] /\ is_terminator c /\ Forall (fun x => ~ is_terminator x) body.

(** The characters after the last terminator. *)
Definition trailing_span (s : text) : Prop :=
  s <> [] /\ Forall (fun x => ~ is_terminator x) s.

(** The loop of [split_sentences] as a recursion on the text. *)
Fixpoint spans (current t : text) : list text :=
  match t with
  | [] => match current with [] => [] | _ :: _ => [current] end
  | char :: t' =>
      if char_in char terminators then (current ++ [char]) :: spans [] t'
      else spans (current ++ [char]) t'
  end.

(** ** Runs of [translate] *)

(** A request that came back with a text. *)
Definition returned (c : call) : Prop := exists v, got c = Returns v.

(** A sentence that is not of whitespace only. *)
Definition nonblank (s : text) : bool := negb (forallb isspace s).

Section Runs.

Variable S : Type.
Variable service : GoogleTranslator -> text -> S -> outcome text * S.
Variable ucd : Z -> uni_class.

(** What a run of [m] from [w] adds to the log: requests that all returned,
    when [m] returns; when it raises, the last request is the one that
    raised and nothing was asked after it.  Nothing is shown meanwhile. *)
Definition traced {A} (m : M S A) : Prop :=
  forall w,
    exists new,
      calls S (snd (m w)) = calls S w ++ new /\
      shown S (snd (m w)) = shown S w /\
      match fst (m w) with
      | Returns _ => Forall returned new
      | Raises e =>
          exists before c,
            new = before ++ [c] /\ Forall returned before /\ got c = Raises e
      end.

Fixpoint mapM {A B} (f : A -> M S B) (l : list A) : M S (list B) :=
  match l with
  | [] => ret S []
  | x :: l' =>
      bind S (f x) (fun y => bind S (mapM f l') (fun ys => ret S (y :: ys)))
  end.

(** The [except] clause of [translate]. *)
Definition report (e : exn) : M S text :=
  bind S (st_error S (py "Translation error: " ++ message e))
    (fun _ => ret S failure_message).

(** The pipeline as the specification words it: every sentence is masked
    by the preservation filter, the masked sentence is routed, and the
    preserved terms are restored into what came back. *)
Definition translate_sentence_as_specified (sentence : text) : M S text :=
  let (masked, preserved) := preserve_special_terms ucd sentence in
  bind S (route S service ucd masked)
    (fun result => ret S (restore_preserved_terms result preserved)).

Definition translate_as_specified (t : text) : M S text :=
  try_except S
    (if is_empty (strip t) then ret S []
     else
       bind S (mapM translate_sentence_as_specified
                 (filter nonblank (split_sentences t)))
         (fun parts => ret S (join (py " ") parts)))
    report.

End Runs.

Arguments remote {S} _.
Arguments calls {S} _.
Arguments shown {S} _.

(** ** Sample collaborators, for the concrete runs below *)

(** A table with nothing above ASCII; the sample texts it is used on are
    ASCII, where no table is consulted. *)
Definition ucd_ascii : Z -> uni_class := fun _ => UOther.

(** A service that answers with the text it was sent. *)
Definition echo_service (g : GoogleTranslator) (t : text) (s : unit)
  : outcome text * unit := (Returns t, s).

(** A service that counts its requests and fails the second one. *)
Definition flaky_service (g : GoogleTranslator) (t : text) (n : nat)
  : outcome text * nat :=
  match n with
  | 1%nat => (Raises (Exception (py "429 Too Many Requests")), Datatypes.S n)
  | _ => (Returns t, Datatypes.S n)
  end.

(** A service whose request is interrupted: the call raises
    [KeyboardInterrupt], whose [str] is the empty text. *)
Definition interrupted_service (g : GoogleTranslator) (t : text) (s : unit)
  : outcome text * unit := (Raises (BaseException []), s).

Definition fresh {S : Type} (s : S) : world S :=
  {| remote := s; calls := []; shown := [] |}.

(** ** Matches *)

(** The character before the position reached after reading [m]. *)
Definition last_of (prev : option Z) (m : text) : option Z :=
  fold_left (fun _ c => Some c) m prev.

Definition holds_at (p : Z -> bool) (o : option Z) : bool :=
  match o with Some c => p c | None => false end.

Section Matches.

Variable ucd : Z -> uni_class.

(** [matches r prev s prev' s']: [r] matches a prefix of [s] and leaves
    [s']; [prev] and [prev'] are the characters before the two positions. *)
Inductive matches : regex -> option Z -> text -> option Z -> text -> Prop :=
| matches_bnd prev s :
    at_boundary ucd prev s = true -> matches Bnd prev s prev s
| matches_cls (p : Z -> bool) prev c s :
    p c = true -> matches (Cls p) prev (c :: s) (Some c) s
| matches_cat r1 r2 prev s p1 s1 p2 s2 :
    matches r1 prev s p1 s1 -> matches r2 p1 s1 p2 s2 ->
    matches (Cat r1 r2) prev s p2 s2
| matches_star_done r prev s : matches (Star r) prev s prev s
| matches_star_more r prev s p1 s1 p2 s2 :
    matches r prev s p1 s1 -> matches (Star r) p1 s1 p2 s2 ->
    matches (Star r) prev s p2 s2.

(** A character of a number: a digit or one of [-/.]. *)
Definition digsep (c : Z) : bool := is_digit ucd c || is_sep c.

(** What both preservation patterns match: a text [m], not empty, of
    characters of [cls], that begins and ends with a word character and has
    a non-word character, or an end of the text, on either side. *)
Definition token_match (cls : Z -> bool) (prev : option Z) (s rest : text)
  : Prop :=
  exists m,
    s = m ++ rest /\ m <> [] /\ forallb cls m = true /\
    word_at ucd prev = false /\
    word_at ucd (hd_error rest) = false /\
    word_at ucd (hd_error m) = true /\
    word_at ucd (last_of prev m) = true.

End Matches.

(** ** A masked text as a sequence of pieces

    A character that was copied, or a term that was replaced by the marker
    of index [i]. *)

Inductive piece : Type :=
| Lit (c : Z)
| Tok (i : nat) (term : text).

(** The text before masking. *)
Definition original (ps : list piece) : text :=
  flat_map (fun p => match p with Lit c => [c] | Tok _ term => term end) ps.

(** The text in which the terms of index below [j] are back in place and
    the others are still markers; [masked_upto 0] is the masked text. *)
Definition masked_upto (j : nat) (ps : list piece) : text :=
  flat_map (fun p =>
              match p with
              | Lit c => [c]
              | Tok i term => if (i <? j)%nat then term else marker i
              end) ps.

Definition has_tok (ps : list piece) : Prop :=
  exists i term, In (Tok i term) ps.

(** The terms of a piece list with their indices, in the order of the
    text. *)
Definition tokens (ps : list piece) : list (nat * text) :=
  flat_map (fun p => match p with Lit _ => [] | Tok i term => [(i, term)] end)
    ps.

(** A term that is a capitalised word: of ASCII letters only. *)
Definition is_name (it : nat * text) : bool := forallb ascii_letter (snd it).

Section Placement.

Variable ucd : Z -> uni_class.

(** A preserved term: a capitalised word or a number. *)
Definition term_ok (m : text) : Prop :=
  m <> [] /\ (forallb ascii_letter m = true \/ forallb (digsep ucd) m = true).

Definition next_nonword (ps : list piece) : Prop :=
  match ps with
  | [] => True
  | Lit c :: _ => is_word ucd c = false
  | Tok _ _ :: _ => False
  end.

(** [well_placed b ps]: every term of [ps] stands between non-word
    characters or ends of the text; [b] tells whether the character before
    [ps] is a word character. *)
Inductive well_placed : bool -> list piece -> Prop :=
| wp_nil b : well_placed b []
| wp_lit b c ps : well_placed (is_word ucd c) ps -> well_placed b (Lit c :: ps)
| wp_tok i term ps :
    term_ok term -> next_nonword ps -> well_placed true ps ->
    well_placed false (Tok i term :: ps).

(** The pattern [r], whose matches are of characters of [cls], does not
    see the markers already in the text. *)
Definition blind (r : regex) (cls : Z -> bool) : Prop :=
  cls 80 = false /\
  forall i prev a1 a2 rest,
    marker i = a1 ++ a2 -> a2 <> [] ->
    match_at ucd r (last_of prev a1) (a2 ++ rest) = None.

End Placement.

(** ** Round trip and placeholders *)

(** Restoration after preservation, with nothing in between. *)
Definition round_trip (ucd : Z -> uni_class) (t : text) : Prop :=
  restore_preserved_terms (fst (preserve_special_terms ucd t))
    (snd (preserve_special_terms ucd t)) = t.



(** ** Counting spans *)

(** The number of terminators of a text. *)
Definition count_terminators (t : text) : nat :=
  length (filter (fun c => char_in c terminators) t).

(** The text has a last character and it is not a terminator. *)
Definition ends_open (t : text) : bool :=
  match rev t with
  | [] => false
  | c :: _ => negb (char_in c terminators)
  end.

(** ** Runs of characters *)

Fixpoint take_while (p : Z -> bool) (s : text) : text :=
  match s with
  | [] => []
  | c :: s' => if p c then c :: take_while p s' else []
  end.

Fixpoint drop_while (p : Z -> bool) (s : text) : text :=
  match s with
  | [] => []
  | c :: s' => if p c then drop_while p s' else s
  end.

(** The final [\b] of both preservation patterns, as the continuation the
    matcher runs it with. *)
Definition at_end (ucd : Z -> uni_class) (prev : option Z) (s : text)
  : option text :=
  run ucd Bnd prev s (fun _ rest => Some rest).

(** The texts the service answered with, in the order of the requests. *)
Definition answers (cs : list call) : list text :=
  flat_map (fun c => match got c with Returns v => [v] | Raises _ => [] end) cs.

(** What is left of a number after its first digits: groups of a
    separator and digits are taken as long as there are some, and the
    number ends before a non-word character or the end of the text; when
    it cannot end after the last group, that group is given back.  [fuel]
    bounds the number of groups. *)
Fixpoint groups_end (ucd : Z -> uni_class) (fuel : nat) (r : text)
  : option text :=
  let stop := if word_at ucd (hd_error r) then None else Some r in
  match fuel with
  | O => stop
  | Datatypes.S fuel' =>
      match r with
      | x :: y :: r1 =>
          if is_sep x && is_digit ucd y then
            match groups_end ucd fuel' (drop_while (is_digit ucd) r1) with
            | Some e => Some e
            | None => Some r
            end
          else stop
      | _ => stop
      end
  end.

(** The group [(?:[-/.]\d+)] of the number pattern. *)
Definition number_group (ucd : Z -> uni_class) : regex :=
  Cat (Cls is_sep) (Plus (Cls (is_digit ucd))).

(** * Properties *)

Tactic Notation "destruct_let" hyp(H) "as" ident(a) ident(b) "eqn" ident(E) :=
  match type of H with
  | context [let (_, _) := ?x in _] => destruct x as [a b] eqn:E
  end.

Ltac split6 := split; [|split; [|split; [|split; [|split]]]].

(** ** Sentence segmentation *)

Lemma split_fold_spans (t : text) : forall sentences current,
  (let (s, c) := fold_left split_step t (sentences, current) in
   match c with [] => s | _ :: _ => s ++ [c] end)
  = sentences ++ spans current t.
Proof.
  induction t as [|char t IH]; intros sentences current;
    cbn [fold_left spans split_step].
  - destruct current; [now rewrite app_nil_r | reflexivity].
  - destruct (char_in char terminators).
    + transitivity ((sentences ++ [current ++ [char]]) ++ spans [] t).
      * exact (IH _ _).
      * now rewrite <- app_assoc.
    + apply IH.
Qed.

Lemma split_sentences_spans (t : text) : split_sentences t = spans [] t.
Proof.
  exact (split_fold_spans t [] []).
Qed.

Lemma spans_concat (t : text) : forall current,
  concat (spans current t) = current ++ t.
Proof.
  induction t as [|char t IH]; intros current; simpl.
  - destruct current; simpl; now rewrite ?app_nil_r.
  - destruct (char_in char terminators); simpl; rewrite IH.
    + now rewrite <- app_assoc.
    + now rewrite <- app_assoc.
Qed.

Lemma spans_shape (t : text) : forall current,
  Forall (fun x => ~ is_terminator x) current ->
  exists closed last,
    spans current t = closed ++ last /\
    Forall closed_span closed /\
    (last = [] \/ exists s, last = [s] /\ trailing_span s).
Proof.
  induction t as [|char t IH]; intros current Hcur; simpl.
  - exists [].
    destruct current as [|c cur'].
    + exists []. repeat split; auto.
    + exists [c :: cur']. repeat split; auto.
      right. exists (c :: cur'). repeat split; auto. discriminate.
  - destruct (char_in char terminators) eqn:Hc.
    + destruct (IH [] (Forall_nil _)) as (closed & last & E & Hcl & Hl).
      exists ((current ++ [char]) :: closed), last. rewrite E.
      repeat split; auto.
      constructor; auto. exists current, char. repeat split; auto.
    + apply IH. apply Forall_app. split; auto.
      constructor; auto. unfold is_terminator. rewrite Hc. discriminate.
Qed.

(** C3. Concatenating the spans of [split_sentences] gives the text back;
    every span but possibly the last ends with a terminator, which is its
    only one, and the characters after the last terminator, if any, make the
    final span.  The terminators are the six characters of the literal. *)
Theorem C3_split_sentences_lossless (t : text) :
  concat (split_sentences t) = t /\
  (exists closed last,
     split_sentences t = closed ++ last /\
     Forall closed_span closed /\
     (last = [] \/ exists s, last = [s] /\ trailing_span s)) /\
  (forall c, is_terminator c <-> In c [46; 33; 63; 8225; 8226; 167]).
Proof.
  rewrite split_sentences_spans. split; [apply spans_concat|]. split.
  - apply spans_shape. constructor.
  - intros c. unfold is_terminator, char_in.
    change terminators with [46; 33; 63; 8225; 8226; 167].
    rewrite existsb_exists. split.
    + intros (x & Hin & Hx). apply Z.eqb_eq in Hx. now subst.
    + intros Hin. exists c. split; auto. apply Z.eqb_refl.
Qed.

(** ** Script detection *)

Lemma search_class (ucd : Z -> uni_class) (p : Z -> bool) (s : text) :
  forall prev, is_some (search_from ucd (Cls p) prev s) = existsb p s.
Proof.
  induction s as [|c s IH]; intros prev.
  - reflexivity.
  - cbn [search_from match_at run existsb]. destruct (p c); simpl.
    + reflexivity.
    + apply IH.
Qed.

Lemma detect_language_mix_spec (ucd : Z -> uni_class) (t : text) :
  detect_language_mix ucd t
  = (existsb (in_range 2304 2431) t, existsb ascii_letter t).
Proof.
  unfold detect_language_mix, re_search, hindi_pattern, english_pattern.
  now rewrite !search_class.
Qed.

Lemma in_range_iff (lo hi c : Z) : in_range lo hi c = true <-> lo <= c <= hi.
Proof. unfold in_range. rewrite andb_true_iff, !Z.leb_le. tauto. Qed.

Lemma ascii_letter_iff (c : Z) :
  ascii_letter c = true <-> 65 <= c <= 90 \/ 97 <= c <= 122.
Proof.
  unfold ascii_letter, ascii_lower, ascii_upper.
  rewrite orb_true_iff, !in_range_iff. tauto.
Qed.

Lemma isspace_iff (c : Z) :
  isspace c = true <->
  9 <= c <= 13 \/ 28 <= c <= 32 \/ c = 133 \/ c = 160 \/ c = 5760 \/
  8192 <= c <= 8202 \/ c = 8232 \/ c = 8233 \/ c = 8239 \/ c = 8287 \/
  c = 12288.
Proof.
  unfold isspace. rewrite !orb_true_iff, !in_range_iff, !Z.eqb_eq. tauto.
Qed.

Lemma isspace_no_script (c : Z) :
  isspace c = true -> in_range 2304 2431 c = false /\ ascii_letter c = false.
Proof.
  rewrite isspace_iff. intros H.
  split; apply not_true_iff_false;
    rewrite ?in_range_iff, ?ascii_letter_iff; lia.
Qed.

Lemma existsb_false_on {A} (p q : A -> bool) (l : list A) :
  (forall x, q x = true -> p x = false) ->
  forallb q l = true -> existsb p l = false.
Proof.
  intros Hpq. induction l as [|x l IH]; simpl; auto.
  rewrite andb_true_iff. intros [Hx Hl]. now rewrite (Hpq x Hx), IH.
Qed.

(** The two answers of the detector, as the presence of a character. *)
Lemma detect_scripts_iff (ucd : Z -> uni_class) (t : text) :
  (fst (detect_language_mix ucd t) = true <->
   exists c, In c t /\ 2304 <= c <= 2431) /\
  (snd (detect_language_mix ucd t) = true <->
   exists c, In c t /\ (65 <= c <= 90 \/ 97 <= c <= 122)).
Proof.
  rewrite detect_language_mix_spec. simpl. rewrite !existsb_exists.
  split; split.
  - intros (c & Hin & Hc). exists c. split; auto. now apply in_range_iff.
  - intros (c & Hin & Hc). exists c. split; auto. now apply in_range_iff.
  - intros (c & Hin & Hc). exists c. split; auto. now apply ascii_letter_iff.
  - intros (c & Hin & Hc). exists c. split; auto. now apply ascii_letter_iff.
Qed.

(** C8. The detector answers [(False, False)] on the empty text and on every
    text of whitespace only; it answers as the three examples say; its first
    component is the presence of a character in U+0900..U+097F and its second
    the presence of an ASCII letter. *)
Theorem C8_detect_language_mix (ucd : Z -> uni_class) :
  detect_language_mix ucd [] = (false, false) /\
  (forall t, forallb isspace t = true ->
             detect_language_mix ucd t = (false, false)) /\
  detect_language_mix ucd (py "राम") = (true, false) /\
  detect_language_mix ucd (py "Ram") = (false, true) /\
  detect_language_mix ucd (py "राम Ram") = (true, true) /\
  (forall t, fst (detect_language_mix ucd t) = true <->
             exists c, In c t /\ 2304 <= c <= 2431) /\
  (forall t, snd (detect_language_mix ucd t) = true <->
             exists c, In c t /\ (65 <= c <= 90 \/ 97 <= c <= 122)).
Proof.
  repeat split; try reflexivity.
  - intros t Ht. rewrite detect_language_mix_spec.
    rewrite (existsb_false_on _ isspace), (existsb_false_on _ isspace); auto;
      intros c Hc; now apply isspace_no_script.
  - rewrite detect_language_mix_spec. simpl. rewrite existsb_exists.
    intros (c & Hin & Hc). exists c. split; auto. now apply in_range_iff.
  - rewrite detect_language_mix_spec. simpl. rewrite existsb_exists.
    intros (c & Hin & Hc). exists c. split; auto. now apply in_range_iff.
  - rewrite detect_language_mix_spec. simpl. rewrite existsb_exists.
    intros (c & Hin & Hc). exists c. split; auto. now apply ascii_letter_iff.
  - rewrite detect_language_mix_spec. simpl. rewrite existsb_exists.
    intros (c & Hin & Hc). exists c. split; auto. now apply ascii_letter_iff.
Qed.

(** ** Blank texts *)

Lemma lstrip_blank (s : text) : forallb isspace s = true -> lstrip s = [].
Proof.
  induction s as [|c s IH]; simpl; auto.
  rewrite andb_true_iff. intros [Hc Hs]. rewrite Hc. auto.
Qed.

Lemma lstrip_split (s : text) :
  exists ws, s = ws ++ lstrip s /\ forallb isspace ws = true.
Proof.
  induction s as [|c s (ws & E & Hws)]; simpl.
  - now exists [].
  - destruct (isspace c) eqn:Hc.
    + exists (c :: ws). split.
      * simpl. now f_equal.
      * simpl. now rewrite Hc.
    + now exists [].
Qed.

Lemma forallb_rev {A} (p : A -> bool) (l : list A) :
  forallb p (rev l) = forallb p l.
Proof.
  apply eq_true_iff_eq. rewrite !forallb_forall.
  split; intros H x Hx; apply H; [now apply in_rev in Hx | now apply in_rev].
Qed.

(** [not s.strip()] holds exactly of the texts of whitespace only. *)
Lemma strip_blank (s : text) : is_empty (strip s) = forallb isspace s.
Proof.
  destruct (forallb isspace s) eqn:Hs.
  - unfold strip, rstrip. rewrite (lstrip_blank (rev s)).
    + reflexivity.
    + now rewrite forallb_rev.
  - destruct (strip s) eqn:E; auto. exfalso.
    unfold strip in E.
    destruct (lstrip_split (rstrip s)) as (ws1 & E1 & H1).
    rewrite E, app_nil_r in E1. unfold rstrip in E1.
    destruct (lstrip_split (rev s)) as (ws2 & E2 & H2).
    assert (H3 : forallb isspace (lstrip (rev s)) = true).
    { rewrite <- forallb_rev, E1. exact H1. }
    assert (H4 : forallb isspace (rev s) = true).
    { rewrite E2, forallb_app, H2, H3. reflexivity. }
    rewrite forallb_rev in H4. congruence.
Qed.

(** ** The orchestrator *)

Section Orchestrator.

Variable S : Type.
Variable service : GoogleTranslator -> text -> S -> outcome text * S.
Variable ucd : Z -> uni_class.

Lemma traced_ret {A} (a : A) : traced S (ret S a).
Proof. intros w. exists []. simpl. rewrite app_nil_r. auto. Qed.

Lemma traced_translate_with (g : GoogleTranslator) (t : text) :
  traced S (translate_with S service g t).
Proof.
  intros w. unfold translate_with.
  destruct (service g t (remote w)) as [o s'] eqn:E. simpl.
  exists [{| via := g; sent := t; got := o |}]. repeat split.
  destruct o as [v|e].
  - repeat constructor. now exists v.
  - exists [], {| via := g; sent := t; got := Raises e |}. auto.
Qed.

Lemma traced_bind {A B} (m : M S A) (f : A -> M S B) :
  traced S m -> (forall a, traced S (f a)) -> traced S (bind S m f).
Proof.
  intros Hm Hf w. unfold bind.
  destruct (Hm w) as (new1 & Hc1 & Hs1 & H1).
  destruct (m w) as [[a|e] w1]; simpl in *.
  - destruct (Hf a w1) as (new2 & Hc2 & Hs2 & H2).
    exists (new1 ++ new2). rewrite Hc2, Hc1, Hs2, Hs1, app_assoc.
    repeat split.
    destruct (fst (f a w1)) as [b|e].
    + apply Forall_app. auto.
    + destruct H2 as (before & c & -> & Hb & Hc).
      exists (new1 ++ before), c. rewrite app_assoc. repeat split; auto.
      apply Forall_app. auto.
  - exists new1. auto.
Qed.

Lemma traced_route (sentence : text) : traced S (route S service ucd sentence).
Proof.
  unfold route.
  destruct (detect_language_mix ucd sentence) as [[|] [|]]; simpl;
    try apply traced_translate_with.
  apply traced_bind; intros; apply traced_translate_with.
Qed.

Lemma traced_translate_loop (sentences : list text) :
  forall parts, traced S (translate_loop S service ucd sentences parts).
Proof.
  induction sentences as [|s rest IH]; intros parts; simpl.
  - apply traced_ret.
  - destruct (is_empty (strip s)); [apply IH|].
    apply traced_bind; [apply traced_route | intros; apply IH].
Qed.

Lemma traced_translate_body (t : text) : traced S (translate_body S service ucd t).
Proof.
  unfold translate_body. destruct (is_empty (strip t)).
  - apply traced_ret.
  - apply traced_bind; [apply traced_translate_loop | intros; apply traced_ret].
Qed.

(** [translate] in terms of its [try] body. *)
Lemma translate_cases (t : text) (w : world S) :
  (exists r,
     translate_body S service ucd t w
     = (Returns r, snd (translate_body S service ucd t w)) /\
     translate S service ucd t w
     = (Returns r, snd (translate_body S service ucd t w))) \/
  (exists m w1,
     translate_body S service ucd t w = (Raises (Exception m), w1) /\
     translate S service ucd t w =
       (Returns failure_message,
        {| remote := remote w1; calls := calls w1;
           shown := shown w1 ++ [py "Translation error: " ++ m] |})) \/
  (exists m w1,
     translate_body S service ucd t w = (Raises (BaseException m), w1) /\
     translate S service ucd t w = (Raises (BaseException m), w1)).
Proof.
  unfold translate, try_except.
  destruct (translate_body S service ucd t w) as [[r|[m|m]] w1] eqn:E.
  - left. exists r. auto.
  - right. left. exists m, w1. auto.
  - right. right. exists m, w1. auto.
Qed.

End Orchestrator.

(** C6. On the empty text and on every text of whitespace only, [translate]
    returns the empty text and leaves the world as it was: no request is
    made and nothing is shown. *)
Theorem C6_translate_blank_input
    (S : Type) (service : GoogleTranslator -> text -> S -> outcome text * S)
    (ucd : Z -> uni_class) (t : text) (w : world S) :
  forallb isspace t = true ->
  translate S service ucd t w = (Returns [], w).
Proof.
  intros Ht. unfold translate, try_except, translate_body.
  now rewrite strip_blank, Ht.
Qed.

Lemma C6_translate_blank_input_witness :
  translate unit echo_service ucd_ascii [] (fresh tt) = (Returns [], fresh tt)
  /\ translate unit echo_service ucd_ascii [32; 9; 10] (fresh tt)
     = (Returns [], fresh tt).
Proof.
  split.
  - apply (C6_translate_blank_input unit echo_service ucd_ascii [] (fresh tt)).
    reflexivity.
  - apply (C6_translate_blank_input unit echo_service ucd_ascii [32; 9; 10]
             (fresh tt)).
    reflexivity.
Defined.

(** C5. When a request made during [translate] raised an instance of
    [Exception], as the errors of the service are, [translate] returns the
    failure message; the request that raised is the last one made, so the
    sentences after it are not processed, and all requests before it had
    returned. *)
Theorem C5_service_error_gives_failure_message
    (S : Type) (service : GoogleTranslator -> text -> S -> outcome text * S)
    (ucd : Z -> uni_class) (t : text) (w : world S)
    (new : list call) (c : call) (m : text) :
  calls (snd (translate S service ucd t w)) = calls w ++ new ->
  In c new ->
  got c = Raises (Exception m) ->
  fst (translate S service ucd t w) = Returns failure_message /\
  exists before, new = before ++ [c] /\ Forall returned before.
Proof.
  intros Hnew Hin Hc.
  assert (Hnot : ~ returned c) by (intros [v Hv]; congruence).
  destruct (traced_translate_body S service ucd t w) as (new0 & Hc0 & _ & H0).
  destruct (translate_cases S service ucd t w)
    as [(r & Hb & Ht) | [(m0 & w1 & Hb & Ht) | (m0 & w1 & Hb & Ht)]];
    rewrite Ht in *; rewrite Hb in *; simpl in *;
    rewrite Hc0 in Hnew; apply app_inv_head in Hnew; subst new0.
  - rewrite Forall_forall in H0. now apply H0 in Hin.
  - destruct H0 as (before & c0 & -> & Hbefore & Hc0').
    split; auto. exists before. split; auto.
    apply in_app_or in Hin. destruct Hin as [Hin | [<- | []]]; auto.
    rewrite Forall_forall in Hbefore. now apply Hbefore in Hin.
  - exfalso. destruct H0 as (before & c0 & -> & Hbefore & Hc0').
    apply in_app_or in Hin. destruct Hin as [Hin | [<- | []]].
    + rewrite Forall_forall in Hbefore. now apply Hbefore in Hin.
    + congruence.
Qed.

Lemma C5_service_error_gives_failure_message_witness :
  fst (translate nat flaky_service ucd_ascii (py "Hi. Yo. Go.") (fresh 0%nat))
  = Returns failure_message /\
  exists before,
    [ {| via := auto_translator; sent := py "Hi."; got := Returns (py "Hi.") |};
      {| via := auto_translator; sent := py " Yo.";
         got := Raises (Exception (py "429 Too Many Requests")) |} ]
    = before ++
      [ {| via := auto_translator; sent := py " Yo.";
           got := Raises (Exception (py "429 Too Many Requests")) |} ]
    /\ Forall returned before.
Proof.
  apply (C5_service_error_gives_failure_message nat flaky_service ucd_ascii
           (py "Hi. Yo. Go.") (fresh 0%nat) _ _ (py "429 Too Many Requests")).
  - reflexivity.
  - simpl. auto.
  - reflexivity.
Defined.

(** C10, amended. [translate] raises nothing that is an instance of
    [Exception].  Whichever step of its [try] body raised one, [translate]
    shows it and returns the failure message; what the body raises outside
    [Exception] goes on to the caller.  So when [translate] returns, every
    request that raised did raise an instance of [Exception], and the
    result is then the failure message; and when [translate] raises, it is
    what the last request made raised, outside [Exception], and nothing is
    shown. *)
Theorem C10_translate_raises_only_outside_Exception
    (S : Type) (service : GoogleTranslator -> text -> S -> outcome text * S)
    (ucd : Z -> uni_class) (t : text) (w : world S) :
  (forall e, fst (translate_body S service ucd t w) = Raises e ->
     if is_Exception e
     then fst (translate S service ucd t w) = Returns failure_message /\
          shown (snd (translate S service ucd t w))
          = shown w ++ [py "Translation error: " ++ message e]
     else fst (translate S service ucd t w) = Raises e) /\
  exists new,
    calls (snd (translate S service ucd t w)) = calls w ++ new /\
    match fst (translate S service ucd t w) with
    | Returns r =>
        forall c e, In c new -> got c = Raises e ->
          is_Exception e = true /\ r = failure_message
    | Raises e =>
        is_Exception e = false /\
        shown (snd (translate S service ucd t w)) = shown w /\
        exists before c,
          new = before ++ [c] /\ Forall returned before /\ got c = Raises e
    end.
Proof.
  destruct (traced_translate_body S service ucd t w) as (new0 & Hc0 & Hs & H0).
  destruct (translate_cases S service ucd t w)
    as [(r & Hb & Ht) | [(m0 & w1 & Hb & Ht) | (m0 & w1 & Hb & Ht)]];
    rewrite Ht; rewrite Hb in *; cbn [fst snd calls shown] in *.
  - split; [discriminate|]. exists new0. split; [exact Hc0|].
    intros c e Hin Hc. exfalso. rewrite Forall_forall in H0.
    destruct (H0 c Hin) as [v Hv]. congruence.
  - split.
    + intros e [= <-]. cbn [is_Exception message]. now rewrite Hs.
    + exists new0. split; [exact Hc0|].
      destruct H0 as (before & c0 & -> & Hbefore & Hc0').
      intros c e Hin Hc.
      apply in_app_or in Hin. destruct Hin as [Hin | [<- | []]].
      * exfalso. rewrite Forall_forall in Hbefore.
        destruct (Hbefore c Hin) as [v Hv]. congruence.
      * rewrite Hc0' in Hc. injection Hc as <-. auto.
  - split.
    + intros e [= <-]. reflexivity.
    + exists new0. split; [exact Hc0|]. auto.
Qed.

(** C10 as stated fails: when a request is interrupted, the
    [KeyboardInterrupt] passes the [except Exception] clause, and
    [translate] raises it instead of returning the failure message. *)
Lemma C10_counterexample :
  fst (translate unit interrupted_service ucd_ascii (py "Hello.") (fresh tt))
  = Raises (BaseException []) /\
  ~ exists r,
      fst (translate unit interrupted_service ucd_ascii (py "Hello.") (fresh tt))
      = Returns r.
Proof.
  split; [reflexivity|]. intros [r H]. vm_compute in H. discriminate H.
Qed.

(** ** Routing *)

(** C4. The path of a sentence is chosen by its scripts: with a Devanagari
    character and an ASCII letter, it is sent to the auto-to-Hindi
    translator and the Hindi result to the Hindi-to-English one; with a
    Devanagari character and no ASCII letter, to the Hindi-to-English
    translator; without a Devanagari character, to the auto-to-English
    translator. *)
Theorem C4_route_by_script
    (S : Type) (service : GoogleTranslator -> text -> S -> outcome text * S)
    (ucd : Z -> uni_class) (sentence : text) (w : world S) :
  let has_hindi := exists c, In c sentence /\ 2304 <= c <= 2431 in
  let has_english :=
    exists c, In c sentence /\ (65 <= c <= 90 \/ 97 <= c <= 122) in
  (has_hindi /\ has_english ->
   route S service ucd sentence w
   = bind S (translate_with S service {| source := auto; target := hi |} sentence)
       (fun hindi_result =>
          translate_with S service {| source := hi; target := en |} hindi_result)
       w) /\
  (has_hindi /\ ~ has_english ->
   route S service ucd sentence w
   = translate_with S service {| source := hi; target := en |} sentence w) /\
  (~ has_hindi ->
   route S service ucd sentence w
   = translate_with S service {| source := auto; target := en |} sentence w).
Proof.
  intros has_hindi has_english.
  destruct (detect_scripts_iff ucd sentence) as [Hh He].
  fold has_hindi in Hh. fold has_english in He.
  unfold route.
  destruct (detect_language_mix ucd sentence) as [h e]. simpl in Hh, He.
  repeat split.
  - intros [H1 H2]. apply Hh in H1. apply He in H2. now subst.
  - intros [H1 H2]. apply Hh in H1. subst h.
    destruct e; [now destruct H2; apply He | reflexivity].
  - intros H1. destruct h; [now destruct H1; apply Hh | reflexivity].
Qed.

(** ** The pipeline of [translate] *)

Section Pipeline.

Variable S : Type.
Variable service : GoogleTranslator -> text -> S -> outcome text * S.
Variable ucd : Z -> uni_class.

Lemma bind_ret {A B} (a : A) (f : A -> M S B) (w : world S) :
  bind S (ret S a) f w = f a w.
Proof. reflexivity. Qed.

Lemma bind_bind {A B C} (m : M S A) (f : A -> M S B) (g : B -> M S C)
    (w : world S) :
  bind S (bind S m f) g w = bind S m (fun a => bind S (f a) g) w.
Proof. unfold bind. now destruct (m w) as [[a|e] w1]. Qed.

Lemma bind_ext {A B} (m : M S A) (f g : A -> M S B) (w : world S) :
  (forall a w', f a w' = g a w') -> bind S m f w = bind S m g w.
Proof. intros H. unfold bind. destruct (m w) as [[a|e] w1]; auto. Qed.

Lemma bind_cong {A B} (m m' : M S A) (f : A -> M S B) (w : world S) :
  m w = m' w -> bind S m f w = bind S m' f w.
Proof. unfold bind. now intros ->. Qed.

Lemma try_except_cong {A} (body body' : M S A) (h : exn -> M S A)
    (w : world S) :
  body w = body' w -> try_except S body h w = try_except S body' h w.
Proof. unfold try_except. now intros ->. Qed.

Lemma translate_loop_mapM (sentences : list text) : forall parts w,
  translate_loop S service ucd sentences parts w
  = bind S (mapM S (route S service ucd) (filter nonblank sentences))
      (fun results => ret S (parts ++ results)) w.
Proof.
  induction sentences as [|s rest IH]; intros parts w.
  - simpl. rewrite bind_ret. now rewrite app_nil_r.
  - cbn [translate_loop filter]. unfold nonblank at 1.
    rewrite strip_blank. destruct (forallb isspace s); cbn [negb].
    + apply IH.
    + cbn [mapM]. rewrite bind_bind. apply bind_ext. intros r w1.
      rewrite IH, bind_bind. apply bind_ext. intros rs w2.
      rewrite bind_ret. now rewrite <- app_assoc.
Qed.

End Pipeline.

(** C1, amended. On a text that is not blank, [translate] splits the text,
    sends every sentence that is not of whitespace only through the router
    as it stands, unmasked, and joins the results with one space; a raise
    on the way ends in the [except] clause.  No preservation or restoration
    takes part. *)
Theorem C1_translate_routes_plain_sentences
    (S : Type) (service : GoogleTranslator -> text -> S -> outcome text * S)
    (ucd : Z -> uni_class) (t : text) (w : world S) :
  forallb isspace t = false ->
  translate S service ucd t w
  = try_except S
      (bind S (mapM S (route S service ucd)
                 (filter nonblank (split_sentences t)))
         (fun parts => ret S (join (py " ") parts)))
      (report S) w.
Proof.
  intros Ht. unfold translate, try_except, translate_body.
  rewrite strip_blank, Ht.
  apply try_except_cong.
  rewrite (bind_cong S _ _ _ _ (translate_loop_mapM S service ucd _ [] w)).
  rewrite bind_bind. apply bind_ext. reflexivity.
Qed.

Lemma C1_translate_routes_plain_sentences_witness :
  translate unit echo_service ucd_ascii (py "Hi John.  ! Bye") (fresh tt)
  = try_except unit
      (bind unit (mapM unit (route unit echo_service ucd_ascii)
                    (filter nonblank (split_sentences (py "Hi John.  ! Bye"))))
         (fun parts => ret unit (join (py " ") parts)))
      (report unit) (fresh tt).
Proof.
  apply (C1_translate_routes_plain_sentences unit echo_service ucd_ascii
           (py "Hi John.  ! Bye") (fresh tt)).
  reflexivity.
Defined.

(** C1 as stated fails: on ["John."] the specified pipeline sends the masked
    sentence ["PRESERVED_0."] to the service, and [translate] sends
    ["John."]. *)
Lemma C1_counterexample :
  map sent (calls (snd (translate_as_specified unit echo_service ucd_ascii
                          (py "John.") (fresh tt))))
  = [py "PRESERVED_0."] /\
  map sent (calls (snd (translate unit echo_service ucd_ascii
                          (py "John.") (fresh tt))))
  = [py "John."] /\
  translate unit echo_service ucd_ascii (py "John.") (fresh tt)
  <> translate_as_specified unit echo_service ucd_ascii (py "John.") (fresh tt).
Proof.
  repeat split; try reflexivity.
  intros H. apply (f_equal (fun r => map sent (calls (snd r)))) in H.
  vm_compute in H. discriminate H.
Qed.

(** ** What a match is

    The matcher is sound for the usual reading of the patterns: whatever
    it returns is a match in the sense of [matches]. *)

Section Matching.

Variable ucd : Z -> uni_class.

Lemma star_loop_sound (r : regex)
    (step : option Z -> text -> (option Z -> text -> option text) -> option text)
    (k : option Z -> text -> option text) :
  (forall prev s k' res, step prev s k' = Some res ->
     exists p' s', matches ucd r prev s p' s' /\ k' p' s' = Some res) ->
  forall fuel prev s res,
    star_loop step k fuel prev s = Some res ->
    exists p' s', matches ucd (Star r) prev s p' s' /\ k p' s' = Some res.
Proof.
  intros Hstep. induction fuel as [|fuel IH]; intros prev s res H; simpl in H.
  - exists prev, s. split; [constructor | exact H].
  - destruct (step prev s _) as [res'|] eqn:E.
    + injection H as ->. apply Hstep in E.
      destruct E as (p1 & s1 & Hm & Hk).
      destruct (length s1 <? length s)%nat; [|discriminate].
      apply IH in Hk. destruct Hk as (p2 & s2 & Hm2 & Hk).
      exists p2, s2. split; [econstructor; eauto | exact Hk].
    + exists prev, s. split; [constructor | exact H].
Qed.

Lemma run_sound (r : regex) : forall prev s k res,
  run ucd r prev s k = Some res ->
  exists p' s', matches ucd r prev s p' s' /\ k p' s' = Some res.
Proof.
  induction r as [|p|r1 IH1 r2 IH2|r1 IH1]; intros prev s k res H; simpl in H.
  - destruct (at_boundary ucd prev s) eqn:E; [|discriminate].
    exists prev, s. split; [now constructor | exact H].
  - destruct s as [|c s]; [discriminate|].
    destruct (p c) eqn:E; [|discriminate].
    exists (Some c), s. split; [now constructor | exact H].
  - apply IH1 in H. destruct H as (p1 & s1 & Hm1 & H).
    apply IH2 in H. destruct H as (p2 & s2 & Hm2 & H).
    exists p2, s2. split; [econstructor; eauto | exact H].
  - eapply star_loop_sound; eauto.
Qed.

Lemma match_at_sound (r : regex) (prev : option Z) (s rest : text) :
  match_at ucd r prev s = Some rest -> exists p', matches ucd r prev s p' rest.
Proof.
  intros H. apply run_sound in H. destruct H as (p' & s' & Hm & [= ->]).
  now exists p'.
Qed.

Lemma last_of_app (prev : option Z) (a b : text) :
  last_of prev (a ++ b) = last_of (last_of prev a) b.
Proof. apply fold_left_app. Qed.

Lemma matches_consumes r prev s p' s' :
  matches ucd r prev s p' s' -> exists m, s = m ++ s' /\ p' = last_of prev m.
Proof.
  induction 1 as [prev s _|p prev c s _|r1 r2 prev s p1 s1 p2 s2 _ IH1 _ IH2
                 |r prev s|r prev s p1 s1 p2 s2 _ IH1 _ IH2].
  - now exists [].
  - now exists [c].
  - destruct IH1 as (m1 & -> & ->), IH2 as (m2 & -> & ->).
    exists (m1 ++ m2). now rewrite last_of_app, app_assoc.
  - now exists [].
  - destruct IH1 as (m1 & -> & ->), IH2 as (m2 & -> & ->).
    exists (m1 ++ m2). now rewrite last_of_app, app_assoc.
Qed.

Lemma matches_bnd_inv prev s p' s' :
  matches ucd Bnd prev s p' s' ->
  p' = prev /\ s' = s /\ at_boundary ucd prev s = true.
Proof. inversion 1; subst; auto. Qed.

Lemma matches_cls_inv (p : Z -> bool) prev s p' s' :
  matches ucd (Cls p) prev s p' s' ->
  exists c, s = c :: s' /\ p' = Some c /\ p c = true.
Proof. inversion 1; subst; eauto. Qed.

Lemma matches_cat_inv r1 r2 prev s p' s' :
  matches ucd (Cat r1 r2) prev s p' s' ->
  exists p1 s1, matches ucd r1 prev s p1 s1 /\ matches ucd r2 p1 s1 p' s'.
Proof. inversion 1; subst; eauto. Qed.

(** A repeated class reads characters of the class. *)
Lemma matches_star_cls (p : Z -> bool) prev s p' s' :
  matches ucd (Star (Cls p)) prev s p' s' ->
  exists m, s = m ++ s' /\ p' = last_of prev m /\ forallb p m = true.
Proof.
  remember (Star (Cls p)) as r eqn:Er. intros H. revert Er.
  induction H as [| | |r prev s|r prev s p1 s1 p2 s2 H1 _ H2 IH2];
    intros Er; try discriminate.
  - now exists [].
  - injection Er as ->. apply matches_cls_inv in H1.
    destruct H1 as (c & -> & -> & Hc).
    destruct (IH2 eq_refl) as (m & -> & -> & Hm).
    exists (c :: m). simpl. now rewrite Hc.
Qed.

End Matching.

(** ** The matches of the two preservation patterns *)

Section Tokens.

Variable ucd : Z -> uni_class.

Lemma ascii_upper_letter (c : Z) : ascii_upper c = true -> ascii_letter c = true.
Proof. unfold ascii_letter. intros ->. apply orb_true_r. Qed.

Lemma ascii_letter_word (c : Z) : ascii_letter c = true -> is_word ucd c = true.
Proof.
  intros H. unfold is_word.
  assert (Hc : c < 128) by (apply ascii_letter_iff in H; lia).
  apply Z.ltb_lt in Hc. now rewrite Hc, H.
Qed.

Lemma is_digit_word (c : Z) : is_digit ucd c = true -> is_word ucd c = true.
Proof.
  unfold is_digit, is_word. destruct (c <? 128).
  - intros ->. now rewrite orb_true_r.
  - now destruct (ucd c).
Qed.

Lemma ascii_digit_is_digit (c : Z) :
  ascii_digit c = true -> is_digit ucd c = true.
Proof.
  intros H. unfold is_digit.
  assert (Hc : c < 128) by (apply in_range_iff in H; lia).
  apply Z.ltb_lt in Hc. now rewrite Hc.
Qed.

Lemma holds_last_of (p : Z -> bool) (m : text) : forall prev,
  forallb p m = true -> holds_at p prev = true ->
  holds_at p (last_of prev m) = true.
Proof.
  induction m as [|c m IH]; intros prev Hm Hp; simpl in *; auto.
  apply andb_true_iff in Hm. destruct Hm as [Hc Hm]. now apply IH.
Qed.

Lemma holds_at_weaken (p q : Z -> bool) (o : option Z) :
  (forall c, p c = true -> q c = true) ->
  holds_at p o = true -> holds_at q o = true.
Proof. destruct o; simpl; auto. Qed.

Lemma forallb_weaken (p q : Z -> bool) (m : text) :
  (forall c, p c = true -> q c = true) ->
  forallb p m = true -> forallb q m = true.
Proof.
  intros Hpq. induction m as [|c m IH]; simpl; auto.
  rewrite !andb_true_iff. intros [Hc Hm]. auto.
Qed.

Lemma matches_plus_cls (p : Z -> bool) prev s p' s' :
  matches ucd (Plus (Cls p)) prev s p' s' ->
  exists c m,
    s = (c :: m) ++ s' /\ p' = last_of prev (c :: m) /\
    forallb p (c :: m) = true.
Proof.
  intros H. apply matches_cat_inv in H. destruct H as (p1 & s1 & H1 & H2).
  apply matches_cls_inv in H1. destruct H1 as (c & -> & -> & Hc).
  apply matches_star_cls in H2. destruct H2 as (m & -> & -> & Hm).
  exists c, m. simpl. now rewrite Hc.
Qed.

(** The groups [(?:[-/.]\d+)*]: characters of a number, and the last one
    read is a digit if the one before the groups was. *)
Lemma matches_groups prev s p' s' :
  matches ucd (Star (Cat (Cls is_sep) (Plus (Cls (is_digit ucd))))) prev s p' s' ->
  exists m,
    s = m ++ s' /\ p' = last_of prev m /\ forallb (digsep ucd) m = true /\
    (holds_at (is_digit ucd) prev = true ->
     holds_at (is_digit ucd) p' = true).
Proof.
  remember (Star (Cat (Cls is_sep) (Plus (Cls (is_digit ucd))))) as r eqn:Er.
  intros H. revert Er.
  induction H as [| | |r prev s|r prev s p1 s1 p2 s2 H1 _ H2 IH2];
    intros Er; try discriminate.
  - exists []. auto.
  - injection Er as ->.
    apply matches_cat_inv in H1. destruct H1 as (p0 & s0 & Hs & Hd).
    apply matches_cls_inv in Hs. destruct Hs as (c & -> & -> & Hc).
    apply matches_plus_cls in Hd. destruct Hd as (d & ds & -> & -> & Hds).
    destruct (IH2 eq_refl) as (m & -> & -> & Hm & Hlast).
    exists (c :: (d :: ds) ++ m). repeat split.
    + simpl. now rewrite <- app_assoc.
    + change (c :: (d :: ds) ++ m) with ([c] ++ (d :: ds) ++ m).
      now rewrite !last_of_app.
    + cbn [forallb]. unfold digsep at 1. rewrite Hc, orb_true_r. cbn [andb].
      rewrite forallb_app, Hm, andb_true_r.
      apply (forallb_weaken (is_digit ucd)); auto.
      intros x Hx. unfold digsep. now rewrite Hx.
    + intros _. apply Hlast. simpl in Hds. apply andb_true_iff in Hds.
      now apply (holds_last_of (is_digit ucd) ds (Some d)).
Qed.

Lemma boundary_before prev c s :
  at_boundary ucd prev (c :: s) = true -> is_word ucd c = true ->
  word_at ucd prev = false.
Proof.
  intros H Hc. unfold at_boundary in H. cbn [hd_error] in H.
  change (word_at ucd (Some c)) with (is_word ucd c) in H. rewrite Hc in H.
  now destruct (word_at ucd prev).
Qed.

Lemma boundary_after prev s :
  at_boundary ucd prev s = true -> word_at ucd prev = true ->
  word_at ucd (hd_error s) = false.
Proof.
  unfold at_boundary. intros H Hp. rewrite Hp in H.
  now destruct (word_at ucd (hd_error s)).
Qed.

Lemma proper_noun_token prev s rest :
  match_at ucd proper_noun_pattern prev s = Some rest ->
  token_match ucd ascii_letter prev s rest.
Proof.
  intros H. apply match_at_sound in H. destruct H as (p' & H).
  apply matches_cat_inv in H. destruct H as (p1 & s1 & Hb & H).
  apply matches_bnd_inv in Hb. destruct Hb as (-> & -> & Hb).
  apply matches_cat_inv in H. destruct H as (p2 & s2 & Hc & H).
  apply matches_cls_inv in Hc. destruct Hc as (c & -> & -> & Hc).
  apply matches_cat_inv in H. destruct H as (p3 & s3 & Hs & He).
  apply matches_star_cls in Hs. destruct Hs as (m & -> & -> & Hm).
  apply matches_bnd_inv in He. destruct He as (-> & -> & He).
  apply ascii_upper_letter in Hc.
  assert (Hall : forallb ascii_letter (c :: m) = true)
    by (simpl; now rewrite Hc).
  assert (Hlast : word_at ucd (last_of prev (c :: m)) = true).
  { apply (holds_at_weaken ascii_letter); [apply ascii_letter_word|].
    apply (holds_last_of ascii_letter m (Some c)); auto. }
  exists (c :: m). repeat split; auto.
  - discriminate.
  - eapply boundary_before; eauto. now apply ascii_letter_word.
  - now apply (boundary_after (last_of (Some c) m)).
  - simpl. now apply ascii_letter_word.
Qed.

Lemma number_token prev s rest :
  match_at ucd (number_pattern ucd) prev s = Some rest ->
  token_match ucd (digsep ucd) prev s rest /\
  holds_at (is_digit ucd) (hd_error s) = true.
Proof.
  intros H. apply match_at_sound in H. destruct H as (p' & H).
  apply matches_cat_inv in H. destruct H as (p1 & s1 & Hb & H).
  apply matches_bnd_inv in Hb. destruct Hb as (-> & -> & Hb).
  apply matches_cat_inv in H. destruct H as (p2 & s2 & Hd & H).
  apply matches_plus_cls in Hd. destruct Hd as (d & ds & -> & -> & Hds).
  apply matches_cat_inv in H. destruct H as (p3 & s3 & Hg & He).
  apply matches_groups in Hg. destruct Hg as (m & -> & -> & Hm & Hlast).
  apply matches_bnd_inv in He. destruct He as (-> & -> & He).
  assert (Hd : is_digit ucd d = true)
    by (simpl in Hds; now apply andb_true_iff in Hds).
  assert (Hdl : holds_at (is_digit ucd)
                  (last_of (last_of prev (d :: ds)) m) = true).
  { apply Hlast. apply (holds_last_of (is_digit ucd) ds (Some d)); auto.
    simpl in Hds. now apply andb_true_iff in Hds. }
  assert (Hwl : word_at ucd (last_of (last_of prev (d :: ds)) m) = true).
  { revert Hdl. apply holds_at_weaken. apply is_digit_word. }
  split; [|simpl; exact Hd].
  exists ((d :: ds) ++ m). repeat split.
  - now rewrite <- app_assoc.
  - discriminate.
  - rewrite forallb_app, Hm, andb_true_r.
    apply (forallb_weaken (is_digit ucd)); auto.
    intros x Hx. unfold digsep. now rewrite Hx.
  - eapply boundary_before; eauto. now apply is_digit_word.
  - now apply (boundary_after (last_of (last_of prev (d :: ds)) m)).
  - simpl. now apply is_digit_word.
  - now rewrite last_of_app.
Qed.

End Tokens.

Section Pieces.

Variable ucd : Z -> uni_class.

Lemma firstn_length_app {A} (a b : list A) : firstn (length a) (a ++ b) = a.
Proof. induction a as [|x a IH]; simpl; congruence. Qed.

Section Sub.

Variable St : Type.
Variable r : regex.
Variable repl : text -> St -> text * St.

Lemma sub_from_skip (a : text) : forall prev rest st,
  sub_from ucd r repl prev (a ++ rest) (length a) st
  = sub_from ucd r repl (last_of prev a) rest 0 st.
Proof.
  induction a as [|c a IH]; intros prev rest st.
  - reflexivity.
  - simpl. apply IH.
Qed.

Lemma sub_from_match (m rest : text) (prev : option Z) (st : St) :
  m <> [] ->
  match_at ucd r prev (m ++ rest) = Some rest ->
  sub_from ucd r repl prev (m ++ rest) 0 st
  = (let (out, st1) := repl m st in
     let (tl, st2) := sub_from ucd r repl (last_of prev m) rest 0 st1 in
     (out ++ tl, st2)).
Proof.
  intros Hm H. destruct m as [|c m]; [congruence|].
  assert (E : (length ((c :: m) ++ rest) - length rest)%nat
              = Datatypes.S (length m)).
  { rewrite length_app. cbn [length]. lia. }
  change ((c :: m) ++ rest) with (c :: m ++ rest) in *.
  cbn [sub_from]. rewrite H. unfold matched. rewrite E.
  change (Datatypes.S (length m)) with (length (c :: m)).
  change (c :: m ++ rest) with ((c :: m) ++ rest) at 1.
  rewrite firstn_length_app.
  destruct (repl (c :: m) st) as [out st1].
  now rewrite sub_from_skip.
Qed.

Lemma sub_from_nomatch (c : Z) (s : text) (prev : option Z) (st : St) :
  match_at ucd r prev (c :: s) = None ->
  sub_from ucd r repl prev (c :: s) 0 st
  = (let (tl, st1) := sub_from ucd r repl (Some c) s 0 st in (c :: tl, st1)).
Proof. intros H. cbn [sub_from]. now rewrite H. Qed.

Lemma sub_from_copy (a : text) : forall prev rest st,
  (forall a1 a2, a = a1 ++ a2 -> a2 <> [] ->
     match_at ucd r (last_of prev a1) (a2 ++ rest) = None) ->
  sub_from ucd r repl prev (a ++ rest) 0 st
  = (let (tl, st1) := sub_from ucd r repl (last_of prev a) rest 0 st in
     (a ++ tl, st1)).
Proof.
  induction a as [|c a IH]; intros prev rest st H.
  - simpl. now destruct (sub_from ucd r repl prev rest 0 st).
  - change ((c :: a) ++ rest) with (c :: a ++ rest).
    rewrite sub_from_nomatch.
    + rewrite IH.
      * simpl. now destruct (sub_from ucd r repl (last_of (Some c) a) rest 0 st).
      * intros a1 a2 E Ha2. apply (H (c :: a1) a2); [now rewrite E | exact Ha2].
    + apply (H [] (c :: a)); [reflexivity | discriminate].
Qed.

End Sub.

End Pieces.

Lemma PRESERVED_eq : PRESERVED_ = [80; 82; 69; 83; 69; 82; 86; 69; 68; 95].
Proof. reflexivity. Qed.

Lemma marker_eq (i : nat) :
  marker i = 80 :: [82; 69; 83; 69; 82; 86; 69; 68; 95] ++ str_of_nat i.
Proof. reflexivity. Qed.

Lemma uint_digits_ascii (u : Decimal.uint) :
  forallb ascii_digit (uint_digits u) = true.
Proof. induction u; simpl; auto. Qed.

Lemma original_app (a b : list piece) :
  original (a ++ b) = original a ++ original b.
Proof. apply flat_map_app. Qed.


Lemma original_lits (m : text) : original (map Lit m) = m.
Proof. induction m as [|c m IH]; simpl; congruence. Qed.

Lemma masked_upto_lits (j : nat) (m : text) : masked_upto j (map Lit m) = m.
Proof. induction m as [|c m IH]; simpl; congruence. Qed.

Lemma original_cons_lit (c : Z) (ps : list piece) :
  original (Lit c :: ps) = c :: original ps.
Proof. reflexivity. Qed.

Lemma original_cons_tok (i : nat) (term : text) (ps : list piece) :
  original (Tok i term :: ps) = term ++ original ps.
Proof. reflexivity. Qed.

Lemma masked_cons_lit (j : nat) (c : Z) (ps : list piece) :
  masked_upto j (Lit c :: ps) = c :: masked_upto j ps.
Proof. reflexivity. Qed.

Lemma masked_cons_tok (i : nat) (term : text) (ps : list piece) :
  masked_upto 0 (Tok i term :: ps) = marker i ++ masked_upto 0 ps.
Proof. reflexivity. Qed.

Lemma in_tok_lits (i : nat) (term m : text) (ps : list piece) :
  In (Tok i term) (map Lit m ++ ps) <-> In (Tok i term) ps.
Proof.
  induction m as [|c m IH]; simpl; [tauto|].
  rewrite IH. split; [intros [H|H]; [discriminate | exact H] | auto].
Qed.

Section SubPieces.

Variable ucd : Z -> uni_class.

Lemma is_word_P : is_word ucd 80 = true.
Proof. reflexivity. Qed.

Lemma marker_word (i : nat) : forallb (is_word ucd) (marker i) = true.
Proof.
  unfold marker. rewrite forallb_app. apply andb_true_iff. split.
  - reflexivity.
  - apply (forallb_weaken ascii_digit); [|apply uint_digits_ascii].
    intros c Hc. apply is_digit_word. now apply ascii_digit_is_digit.
Qed.

Lemma word_last_of (a : text) (prev : option Z) :
  a <> [] -> forallb (is_word ucd) a = true ->
  word_at ucd (last_of prev a) = true.
Proof.
  destruct a as [|c a]; [congruence|]. intros _ H. simpl in H.
  apply andb_true_iff in H. destruct H as [Hc Ha].
  apply (holds_last_of (is_word ucd) a (Some c)); auto.
Qed.

Lemma marker_last_word (i : nat) (prev : option Z) :
  word_at ucd (last_of prev (marker i)) = true.
Proof.
  apply word_last_of; [rewrite marker_eq; discriminate | apply marker_word].
Qed.

Lemma next_nonword_of_head (ps : list piece) :
  word_at ucd (hd_error (masked_upto 0 ps)) = false -> next_nonword ucd ps.
Proof.
  destruct ps as [|[c|i term] ps].
  - simpl. auto.
  - simpl. auto.
  - rewrite masked_cons_tok, marker_eq. cbn [app hd_error].
    change (word_at ucd (Some 80)) with (is_word ucd 80).
    rewrite is_word_P. discriminate.
Qed.

Lemma wp_skip_lits (m : text) : forall prev ps,
  well_placed ucd (word_at ucd prev) (map Lit m ++ ps) ->
  well_placed ucd (word_at ucd (last_of prev m)) ps.
Proof.
  induction m as [|c m IH]; intros prev ps H; simpl in *; auto.
  apply (IH (Some c)). now inversion H.
Qed.

Lemma wp_lit_any (b b' : bool) (c : Z) (ps : list piece) :
  well_placed ucd b (Lit c :: ps) -> well_placed ucd b' (Lit c :: ps).
Proof. inversion 1; subst. now constructor. Qed.

Lemma wp_next_any (b b' : bool) (ps : list piece) :
  next_nonword ucd ps -> well_placed ucd b ps -> well_placed ucd b' ps.
Proof.
  destruct ps as [|[c|i term] ps]; simpl; intros Hn H.
  - constructor.
  - eapply wp_lit_any; eauto.
  - destruct Hn.
Qed.

Variable r : regex.
Variable cls : Z -> bool.

Hypothesis r_token : forall prev s rest,
  match_at ucd r prev s = Some rest -> token_match ucd cls prev s rest.
Hypothesis cls_term : forall m,
  m <> [] -> forallb cls m = true -> term_ok ucd m.

(** [old_kind] tells the terms already in the text from those of [cls]. *)
Variable old_kind : text -> bool.
Hypothesis cls_new : forall m,
  m <> [] -> forallb cls m = true -> old_kind m = false.

Lemma tokens_lits_app (m : text) (ps : list piece) :
  tokens (map Lit m ++ ps) = tokens ps.
Proof. induction m as [|c m IH]; simpl; auto. Qed.

Lemma lits_prefix (m : text) : forall ps rest,
  masked_upto 0 ps = m ++ rest ->
  forallb cls m = true ->
  (has_tok ps -> cls 80 = false) ->
  exists ps', ps = map Lit m ++ ps' /\ masked_upto 0 ps' = rest.
Proof.
  induction m as [|c m IH]; intros ps rest E Hm Hb.
  - exists ps. auto.
  - simpl in Hm. apply andb_true_iff in Hm. destruct Hm as [Hc Hm].
    destruct ps as [|[x|i term] ps].
    + discriminate.
    + rewrite masked_cons_lit in E. injection E as -> E.
      destruct (IH ps rest E Hm) as (ps' & -> & Hr).
      * intros (i & term & Hin). apply Hb. exists i, term. now right.
      * exists ps'. auto.
    + rewrite masked_cons_tok, marker_eq in E. injection E as <- _.
      rewrite Hb in Hc; [discriminate|]. exists i, term. now left.
Qed.

(** One pass of [re.sub] with [_preserve_term] over a text given by its
    pieces: the result is again given by pieces, over the same original
    text, with a new term of index [length st + k] for the [k]-th match;
    the terms that were there keep their places, and the new ones come in
    the order of the text. *)
Lemma sub_pieces (n : nat) : forall ps prev st out st',
  (length ps <= n)%nat ->
  well_placed ucd (word_at ucd prev) ps ->
  (has_tok ps -> blind ucd r cls) ->
  sub_from ucd r _preserve_term prev (masked_upto 0 ps) 0 st = (out, st') ->
  exists ps' ext,
    out = masked_upto 0 ps' /\
    original ps' = original ps /\
    well_placed ucd (word_at ucd prev) ps' /\
    (next_nonword ucd ps -> next_nonword ucd ps') /\
    st' = st ++ ext /\
    (forall i term,
       In (Tok i term) ps' <->
       In (Tok i term) ps \/
       exists k, i = (length st + k)%nat /\ nth_error ext k = Some term) /\
    Forall (fun m => forallb cls m = true) ext /\
    ((forall i term, In (Tok i term) ps -> old_kind term = true) ->
     filter (fun it => old_kind (snd it)) (tokens ps') = tokens ps /\
     filter (fun it => negb (old_kind (snd it))) (tokens ps')
     = combine (seq (length st) (length ext)) ext).
Proof.
  induction n as [|n IH]; intros ps prev st out st' Hlen Hwp Hblind Hsub.
  { destruct ps; [|simpl in Hlen; lia]. simpl in Hsub.
    injection Hsub as <- <-. exists [], []. rewrite app_nil_r.
    split6; auto.
    split; [|split; [constructor | intros _; split; reflexivity]].
    split; [intros [] | intros [[]|(k & _ & H)]; destruct k; discriminate]. }
  destruct ps as [|[c|i term] ps1].
  - simpl in Hsub. injection Hsub as <- <-. exists [], [].
    rewrite app_nil_r. split6; auto.
    split; [|split; [constructor | intros _; split; reflexivity]].
    split; [intros [] | intros [[]|(k & _ & H)]; destruct k; discriminate].
  - rewrite masked_cons_lit in Hsub.
    assert (Hwp1 : well_placed ucd (word_at ucd (Some c)) ps1)
      by (inversion Hwp; assumption).
    destruct (match_at ucd r prev (c :: masked_upto 0 ps1)) as [rest|] eqn:E.
    + destruct (r_token _ _ _ E)
        as (m & Hs & Hm & Hcls & Hprev & Hnext & Hhd & Hlast).
      destruct (lits_prefix m (Lit c :: ps1) rest Hs Hcls)
        as (ps2 & Eps & Hrest).
      { intros H. now apply Hblind. }
      rewrite Hs in Hsub, E. rewrite (sub_from_match _ _ _ _ _ _ _ _ Hm E) in Hsub.
      unfold _preserve_term at 1 in Hsub. cbv beta iota zeta in Hsub.
      destruct_let Hsub as tl st2 eqn E2.
      injection Hsub as <- <-. subst rest.
      assert (Hlen2 : (length ps2 <= n)%nat).
      { apply (f_equal (@length piece)) in Eps.
        rewrite length_app, length_map in Eps. simpl in Eps, Hlen.
        destruct m; [congruence|]. simpl in Eps. lia. }
      assert (Hwp2 : well_placed ucd (word_at ucd (last_of prev m)) ps2).
      { apply wp_skip_lits. now rewrite <- Eps. }
      apply IH in E2; auto.
      2:{ intros (i & term & Hin). apply Hblind. exists i, term.
          rewrite Eps. now apply in_tok_lits. }
      destruct E2
        as (ps2' & ext & -> & Horig & Hwp2' & Hnn & -> & Hin & Hext & Hord).
      exists (Tok (length st) m :: ps2'), (m :: ext). split6.
      * reflexivity.
      * now rewrite original_cons_tok, Horig, Eps, original_app, original_lits.
      * rewrite Hprev. constructor.
        -- now apply cls_term.
        -- apply Hnn. now apply next_nonword_of_head.
        -- now rewrite Hlast in Hwp2'.
      * cbn [next_nonword]. intros Hc.
        destruct m as [|x m]; [congruence|]. simpl in Eps.
        injection Eps as <- _. simpl in Hhd. congruence.
      * now rewrite <- app_assoc.
      * split; [|split].
        -- intros j term. rewrite length_app in Hin. cbn [length] in Hin.
           split.
           ++ intros [H|H].
              ** injection H as <- <-. right. exists 0%nat.
                 split; [lia|reflexivity].
              ** apply Hin in H. destruct H as [H|(k & -> & Hk)].
                 --- left. rewrite Eps. now apply in_tok_lits.
                 --- right. exists (Datatypes.S k). split; [lia | exact Hk].
           ++ intros [H|(k & -> & Hk)].
              ** right. apply Hin. left. rewrite Eps in H.
                 now apply in_tok_lits in H.
              ** destruct k as [|k]; simpl in Hk.
                 --- injection Hk as <-. left. f_equal. lia.
                 --- right. apply Hin. right. exists k. split; [lia | exact Hk].
        -- constructor; assumption.
        -- intros Hold. destruct Hord as [Ho1 Ho2].
           { intros j term H. apply (Hold j term). rewrite Eps.
             now apply in_tok_lits. }
           change (tokens (Tok (length st) m :: ps2'))
             with ((length st, m) :: tokens ps2').
           cbn [filter snd]. rewrite (cls_new m Hm Hcls). cbn [negb].
           rewrite Ho1, Ho2, Eps, tokens_lits_app, length_app.
           cbn [length seq combine].
           replace (length st + 1)%nat with (Datatypes.S (length st)) by lia.
           split; reflexivity.
    + rewrite (sub_from_nomatch _ _ _ _ _ _ _ _ E) in Hsub.
      destruct_let Hsub as tl st1 eqn E1.
      injection Hsub as <- <-.
      apply IH in E1; auto.
      2:{ simpl in Hlen. lia. }
      2:{ intros (i & term & Hin). apply Hblind. exists i, term. now right. }
      destruct E1 as (ps1' & ext & -> & Horig & Hwp1' & _ & -> & Hin & Hext & Hord).
      exists (Lit c :: ps1'), ext. split6; auto.
      * now rewrite !original_cons_lit, Horig.
      * now constructor.
      * split; [|split; [exact Hext|]].
        -- intros j term. split.
           ++ intros [H|H]; [discriminate|]. apply Hin in H.
              destruct H as [H|H]; [left; now right | now right].
           ++ intros [[H|H]|H]; [discriminate | |]; right; apply Hin; auto.
        -- intros Hold. apply Hord. intros j term H.
           apply (Hold j term). now right.
  - rewrite masked_cons_tok in Hsub.
    destruct Hblind as [Hcls Hnone]; [exists i, term; now left|].
    rewrite sub_from_copy in Hsub.
    2:{ intros a1 a2 Ea Ha2. now apply (Hnone i). }
    destruct_let Hsub as tl st1 eqn E1.
    injection Hsub as <- <-.
    inversion Hwp as [| |i' term' ps' Hterm Hnext Hwp1 Hb]; subst.
    apply IH in E1; auto.
    2:{ simpl in Hlen. lia. }
    2:{ now rewrite marker_last_word. }
    2:{ intros _. split; assumption. }
    destruct E1 as (ps1' & ext & -> & Horig & Hwp1' & Hnn & -> & Hin & Hext & Hord).
    exists (Tok i term :: ps1'), ext. split6; auto.
    + now rewrite !original_cons_tok, Horig.
    + constructor; auto. now rewrite marker_last_word in Hwp1'.
    + split; [|split; [exact Hext|]].
      * intros j term'. split.
        -- intros [H|H]; [left; now left|]. apply Hin in H.
           destruct H as [H|H]; [left; now right | now right].
        -- intros [[H|H]|H]; [now left | |]; right; apply Hin; auto.
      * intros Hold. destruct Hord as [Ho1 Ho2].
        { intros j term' H. apply (Hold j term'). now right. }
        change (tokens (Tok i term :: ps1'))
          with ((i, term) :: tokens ps1').
        change (tokens (Tok i term :: ps1))
          with ((i, term) :: tokens ps1).
        cbn [filter snd].
        rewrite (Hold i term (or_introl eq_refl)). cbn [negb].
        now rewrite Ho1, Ho2.
Qed.

End SubPieces.

(** ** The structure of a preserved text *)

Lemma wp_term_ok (ucd : Z -> uni_class) (b : bool) (ps : list piece) :
  well_placed ucd b ps ->
  forall i term, In (Tok i term) ps -> term_ok ucd term.
Proof.
  induction 1 as [b|b c ps _ IH|i0 term0 ps Hterm _ _ IH]; intros i term Hin.
  - destruct Hin.
  - destruct Hin as [Hin|Hin]; [discriminate | eauto].
  - destruct Hin as [Hin|Hin]; [|eauto]. now injection Hin as <- <-.
Qed.

Section Preserved.

Variable ucd : Z -> uni_class.

Lemma wp_lits (m : text) : forall b, well_placed ucd b (map Lit m).
Proof. induction m as [|c m IH]; intros b; simpl; constructor; auto. Qed.

Lemma no_tok_lits (m : text) : ~ has_tok (map Lit m).
Proof.
  intros (i & term & H). apply in_map_iff in H.
  destruct H as (c & Hc & _). discriminate.
Qed.

Lemma no_tok_lits' (m : text) (i : nat) (term : text) :
  ~ In (Tok i term) (map Lit m).
Proof. intros H. apply (no_tok_lits m). now exists i, term. Qed.

Lemma letters_term (m : text) :
  m <> [] -> forallb ascii_letter m = true -> term_ok ucd m.
Proof. intros Hm H. split; auto. Qed.

Lemma digseps_term (m : text) :
  m <> [] -> forallb (digsep ucd) m = true -> term_ok ucd m.
Proof. intros Hm H. split; auto. Qed.

Lemma number_pattern_token prev s rest :
  match_at ucd (number_pattern ucd) prev s = Some rest ->
  token_match ucd (digsep ucd) prev s rest.
Proof. intros H. now apply number_token in H. Qed.

(** The number pattern finds nothing inside a marker: a match would start
    at a digit that follows a non-word character, and in a marker only
    word characters come before the digits. *)
Lemma number_pattern_blind :
  blind ucd (number_pattern ucd) (digsep ucd).
Proof.
  split; [reflexivity|].
  intros i prev a1 a2 rest Ea Ha2.
  destruct (match_at ucd (number_pattern ucd) (last_of prev a1) (a2 ++ rest))
    as [rest'|] eqn:E; [|reflexivity].
  exfalso. apply number_token in E.
  destruct E as ((m & _ & _ & _ & Hprev & _) & Hd).
  destruct a1 as [|x a1].
  - simpl in Ea. subst a2. rewrite marker_eq in Hd. simpl in Hd.
    discriminate.
  - rewrite word_last_of in Hprev; [discriminate | discriminate |].
    pose proof (marker_word ucd i) as Hw. rewrite Ea, forallb_app in Hw.
    now apply andb_true_iff in Hw.
Qed.

Lemma filter_all {A} (f : A -> bool) (l : list A) :
  (forall x, f x = true) -> filter f l = l.
Proof.
  intros H. induction l as [|x l IH]; simpl; auto. now rewrite H, IH.
Qed.

Lemma digseps_not_letters (m : text) :
  m <> [] -> forallb (digsep ucd) m = true -> forallb ascii_letter m = false.
Proof.
  destruct m as [|c m]; [congruence|]. intros _ H. simpl in *.
  apply andb_true_iff in H. destruct H as [Hc _].
  apply andb_false_iff. left.
  destruct (ascii_letter c) eqn:E; auto. exfalso.
  unfold digsep, is_digit, is_sep, ascii_letter, ascii_lower, ascii_upper,
    ascii_digit in *.
  apply orb_true_iff in E. rewrite !in_range_iff in E.
  apply orb_true_iff in Hc. destruct Hc as [Hc|Hc].
  - destruct (c <? 128) eqn:E128.
    + apply in_range_iff in Hc. lia.
    + apply Z.ltb_ge in E128. lia.
  - assert (Hs : c = 45 \/ c = 47 \/ c = 46).
    { unfold char_in in Hc. simpl in Hc.
      repeat (apply orb_true_iff in Hc; destruct Hc as [Hc|Hc];
              [apply Z.eqb_eq in Hc; lia|]).
      discriminate. }
    lia.
Qed.

Lemma combine_seq_app {A} (a b : list A) : forall j,
  combine (seq j (length (a ++ b))) (a ++ b)
  = combine (seq j (length a)) a
    ++ combine (seq (j + length a) (length b)) b.
Proof.
  induction a as [|x a IH]; intros j.
  - simpl. now rewrite Nat.add_0_r.
  - cbn [app length seq combine]. rewrite IH.
    replace (Datatypes.S j + length a)%nat with (j + Datatypes.S (length a))%nat
      by lia.
    reflexivity.
Qed.

(** The masked text of [preserve_special_terms] is the text with some of
    its words and numbers replaced, each by the marker whose index is the
    place of the term in the list returned; the words, in the order of the
    text, and after them the numbers, in the order of the text, are the
    list. *)
Lemma preserve_pieces (t : text) :
  exists ps,
    fst (preserve_special_terms ucd t) = masked_upto 0 ps /\
    original ps = t /\
    well_placed ucd false ps /\
    (forall i term,
       In (Tok i term) ps <->
       nth_error (snd (preserve_special_terms ucd t)) i = Some term) /\
    filter is_name (tokens ps)
    ++ filter (fun it => negb (is_name it)) (tokens ps)
    = enumerate (snd (preserve_special_terms ucd t)).
Proof.
  unfold preserve_special_terms, re_sub.
  destruct (sub_from ucd proper_noun_pattern _preserve_term None t 0 [])
    as [t1 st1] eqn:E1.
  destruct (sub_from ucd (number_pattern ucd) _preserve_term None t1 0 st1)
    as [t2 st2] eqn:E2.
  cbn [fst snd].
  rewrite <- (masked_upto_lits 0 t) in E1.
  apply (sub_pieces ucd proper_noun_pattern ascii_letter
           (proper_noun_token ucd) letters_term
           (fun _ => false) (fun _ _ _ => eq_refl)
           (length (map Lit t))) in E1.
  2:{ apply le_n. }
  2:{ apply wp_lits. }
  2:{ intros H. now apply no_tok_lits in H. }
  destruct E1 as (ps1 & ext1 & -> & Horig1 & Hwp1 & _ & -> & Hin1 & Hext1 & Hord1).
  rewrite original_lits in Horig1.
  destruct Hord1 as [_ Hord1].
  { intros i term H. now apply no_tok_lits' in H. }
  rewrite filter_all in Hord1 by reflexivity.
  apply (sub_pieces ucd (number_pattern ucd) (digsep ucd)
           number_pattern_token digseps_term
           (forallb ascii_letter) digseps_not_letters (length ps1)) in E2.
  2:{ apply le_n. }
  2:{ exact Hwp1. }
  2:{ intros _. apply number_pattern_blind. }
  destruct E2 as (ps2 & ext2 & -> & Horig2 & Hwp2 & _ & -> & Hin2 & _ & Hord2).
  destruct Hord2 as [Ho1 Ho2].
  { intros i term H. apply Hin1 in H.
    destruct H as [H|(k & _ & Hk)]; [now apply no_tok_lits' in H|].
    apply nth_error_In in Hk. rewrite Forall_forall in Hext1. now apply Hext1. }
  exists ps2. split; [reflexivity|]. split; [congruence|].
  split; [exact Hwp2|].
  cbn [app length] in *. split.
  - intros i term. rewrite Hin2, Hin1. split.
    + intros [[H|(k & -> & Hk)]|(k & -> & Hk)].
      * now apply no_tok_lits' in H.
      * simpl. rewrite nth_error_app1; auto.
        apply nth_error_Some. congruence.
      * rewrite nth_error_app2 by lia.
        replace (length ext1 + k - length ext1)%nat with k by lia. exact Hk.
    + intros H. destruct (lt_dec i (length ext1)) as [Hlt|Hge].
      * left. right. exists i. rewrite nth_error_app1 in H by exact Hlt. auto.
      * right. exists (i - length ext1)%nat.
        rewrite nth_error_app2 in H by lia. split; [lia | exact H].
  - unfold enumerate. rewrite combine_seq_app. cbn [Nat.add].
    rewrite <- Hord1, <- Ho2. f_equal. exact Ho1.
Qed.

End Preserved.

(** ** Restoration *)

Lemma starts_with_self (p s : text) : starts_with p (p ++ s) = true.
Proof. induction p as [|x p IH]; simpl; auto. now rewrite Z.eqb_refl. Qed.

Lemma starts_with_app (p q s : text) :
  starts_with (p ++ q) (p ++ s) = starts_with q s.
Proof. induction p as [|x p IH]; simpl; auto. now rewrite Z.eqb_refl. Qed.

Lemma starts_with_prefix (p q : text) : forall s,
  starts_with (p ++ q) s = true -> starts_with p s = true.
Proof.
  induction p as [|x p IH]; intros s H; simpl in *; auto.
  destruct s as [|y s]; [discriminate|].
  apply andb_true_iff in H. destruct H as [-> H]. simpl. eauto.
Qed.

Lemma starts_with_forallb (f : Z -> bool) (q : text) : forall a,
  starts_with q a = true -> forallb f a = true -> forallb f q = true.
Proof.
  induction q as [|x q IH]; intros a H Ha; simpl in *; auto.
  destruct a as [|y a]; [discriminate|].
  apply andb_true_iff in H. destruct H as [Hxy H]. apply Z.eqb_eq in Hxy.
  simpl in Ha. apply andb_true_iff in Ha. destruct Ha as [Hy Ha].
  subst y. rewrite Hy. simpl. eauto.
Qed.

Lemma occurs_head (p s : text) : occurs p s = false -> starts_with p s = false.
Proof.
  destruct s; simpl; intros H; apply orb_false_iff in H; tauto.
Qed.

Lemma occurs_tail (p : text) (c : Z) (s : text) :
  occurs p (c :: s) = false -> occurs p s = false.
Proof. simpl. intros H. apply orb_false_iff in H. tauto. Qed.

Lemma occurs_app_r (p a : text) : forall s,
  occurs p (a ++ s) = false -> occurs p s = false.
Proof.
  induction a as [|c a IH]; intros s H; auto.
  apply IH. now apply (occurs_tail p c).
Qed.

Lemma replace_from_skip (old new a : text) : forall rest,
  replace_from old new (a ++ rest) (length a) = replace_from old new rest 0.
Proof. induction a as [|c a IH]; intros rest; simpl; auto. Qed.

Lemma replace_from_hit (old new rest : text) :
  old <> [] ->
  replace_from old new (old ++ rest) 0 = new ++ replace_from old new rest 0.
Proof.
  destruct old as [|c old]; [congruence|]. intros _.
  change ((c :: old) ++ rest) with (c :: old ++ rest).
  cbn [replace_from].
  change (c :: old ++ rest) with ((c :: old) ++ rest).
  rewrite starts_with_self.
  replace (length (c :: old) - 1)%nat with (length old)
    by (cbn [length]; lia).
  now rewrite replace_from_skip.
Qed.

Lemma replace_from_clean (old new a : text) : forall rest,
  (forall a1 a2, a = a1 ++ a2 -> a2 <> [] ->
     starts_with old (a2 ++ rest) = false) ->
  replace_from old new (a ++ rest) 0 = a ++ replace_from old new rest 0.
Proof.
  induction a as [|c a IH]; intros rest H; auto.
  change ((c :: a) ++ rest) with (c :: a ++ rest).
  cbn [replace_from].
  change (c :: a ++ rest) with ((c :: a) ++ rest).
  rewrite (H [] (c :: a)); [|reflexivity|discriminate].
  simpl. f_equal. apply IH.
  intros a1 a2 E Ha2. apply (H (c :: a1) a2); [now rewrite E | exact Ha2].
Qed.

Lemma replace_marker (j : nat) (new s : text) :
  replace (marker j) new s = replace_from (marker j) new s 0.
Proof. rewrite marker_eq. reflexivity. Qed.

Lemma str_of_nat_small (i : nat) :
  (i < 10)%nat -> str_of_nat i = [48 + Z.of_nat i].
Proof. do 10 (destruct i as [|i]; [reflexivity|]). lia. Qed.

Lemma marker_tail_no_P (i : nat) :
  forallb (fun c => negb (c =? 80))
    ([82; 69; 83; 69; 82; 86; 69; 68; 95] ++ str_of_nat i) = true.
Proof.
  rewrite forallb_app. apply andb_true_iff. split; [reflexivity|].
  apply (forallb_weaken ascii_digit); [|apply uint_digits_ascii].
  intros c Hc. apply in_range_iff in Hc. apply negb_true_iff, Z.eqb_neq. lia.
Qed.

(** No marker starts inside another marker, and below ten no marker
    starts another one. *)
Lemma marker_clean (i j : nat) (a1 a2 rest : text) :
  (i < 10)%nat -> (j < 10)%nat -> i <> j ->
  marker i = a1 ++ a2 -> a2 <> [] ->
  starts_with (marker j) (a2 ++ rest) = false.
Proof.
  intros Hi Hj Hij E Ha2. destruct a1 as [|x a1].
  - simpl in E. subst a2. unfold marker. rewrite <- app_assoc.
    rewrite starts_with_app, !str_of_nat_small by assumption.
    cbn [starts_with app].
    assert (F : (48 + Z.of_nat j =? 48 + Z.of_nat i) = false)
      by (apply Z.eqb_neq; lia).
    now rewrite F.
  - rewrite marker_eq in E. injection E as _ E.
    assert (H : forallb (fun c => negb (c =? 80)) (a1 ++ a2) = true)
      by (rewrite <- E; exact (marker_tail_no_P i)).
    rewrite forallb_app in H. apply andb_true_iff in H. destruct H as [_ H].
    destruct a2 as [|y a2]; [congruence|]. simpl in H.
    apply andb_true_iff in H. destruct H as [Hy _].
    apply negb_true_iff in Hy. rewrite marker_eq. cbn [starts_with app].
    rewrite Z.eqb_sym, Hy. reflexivity.
Qed.

Section Restore.

Variable ucd : Z -> uni_class.

Lemma head_nonword (j : nat) (ps : list piece) :
  next_nonword ucd ps -> word_at ucd (hd_error (masked_upto j ps)) = false.
Proof. destruct ps as [|[c|i term] ps]; simpl; auto. intros []. Qed.

(** A text of word characters that starts in a run of copied characters
    lies in that run, hence in the original text. *)
Lemma starts_transfer (j : nat) (q : text) : forall ps,
  forallb (is_word ucd) q = true ->
  well_placed ucd true ps ->
  starts_with q (masked_upto j ps) = true ->
  starts_with q (original ps) = true.
Proof.
  induction q as [|x q IH]; intros ps Hq Hwp H; auto.
  simpl in Hq. apply andb_true_iff in Hq. destruct Hq as [Hx Hq].
  destruct ps as [|[c|i term] ps].
  - discriminate.
  - rewrite masked_cons_lit in H. rewrite original_cons_lit.
    cbn [starts_with] in *. apply andb_true_iff in H. destruct H as [Hxc H].
    rewrite Hxc. apply Z.eqb_eq in Hxc. subst c. simpl.
    apply IH; auto. inversion Hwp; subst. congruence.
  - inversion Hwp.
Qed.

Lemma starts_fits (q : text) : forall a rest,
  forallb (is_word ucd) q = true ->
  word_at ucd (hd_error rest) = false ->
  starts_with q (a ++ rest) = true -> starts_with q a = true.
Proof.
  induction q as [|x q IH]; intros a rest Hq Hrest H; auto.
  simpl in Hq. apply andb_true_iff in Hq. destruct Hq as [Hx Hq].
  destruct a as [|y a].
  - simpl in H. destruct rest as [|z rest]; [discriminate|].
    apply andb_true_iff in H. destruct H as [Hxz _].
    apply Z.eqb_eq in Hxz. subst z. simpl in Hrest. congruence.
  - simpl in *. apply andb_true_iff in H. destruct H as [-> H]. simpl. eauto.
Qed.

Lemma lit_clean (j k : nat) (b : bool) (c : Z) (ps : list piece) :
  well_placed ucd b (Lit c :: ps) ->
  occurs PRESERVED_ (original (Lit c :: ps)) = false ->
  starts_with (marker k) (masked_upto j (Lit c :: ps)) = false.
Proof.
  intros Hwp Hocc.
  destruct (starts_with (marker k) (masked_upto j (Lit c :: ps))) eqn:E; auto.
  apply starts_with_prefix in E. apply starts_transfer in E.
  - apply occurs_head in Hocc. congruence.
  - reflexivity.
  - eapply wp_lit_any; eauto.
Qed.

Lemma term_clean (j k : nat) (term a1 a2 : text) (ps : list piece) :
  term_ok ucd term -> next_nonword ucd ps ->
  term = a1 ++ a2 -> a2 <> [] ->
  starts_with (marker k) (a2 ++ masked_upto j ps) = false.
Proof.
  intros [_ Hterm] Hnext -> Ha2.
  destruct (starts_with (marker k) (a2 ++ masked_upto j ps)) eqn:E; auto.
  exfalso. apply starts_with_prefix in E. destruct Hterm as [H|H];
    rewrite forallb_app in H; apply andb_true_iff in H; destruct H as [_ H].
  - apply starts_fits in E; [|reflexivity|now apply head_nonword].
    apply (starts_with_forallb ascii_letter) in E; auto. discriminate.
  - destruct a2 as [|y a2]; [congruence|]. rewrite PRESERVED_eq in E.
    cbn [starts_with app forallb] in E, H.
    apply andb_true_iff in E. destruct E as [Ey _].
    apply Z.eqb_eq in Ey. subst y.
    apply andb_true_iff in H. destruct H as [H _]. discriminate.
Qed.

(** One turn of the loop of [restore_preserved_terms]. *)
Lemma restore_step (j : nat) (term_j : text) : forall ps b,
  (j < 10)%nat ->
  well_placed ucd b ps ->
  occurs PRESERVED_ (original ps) = false ->
  (forall i term, In (Tok i term) ps ->
     (i < 10)%nat /\ (i = j -> term = term_j)) ->
  replace_from (marker j) term_j (masked_upto j ps) 0
  = masked_upto (Datatypes.S j) ps.
Proof.
  intros ps b Hj. revert b.
  induction ps as [|[c|i term] ps IH]; intros b Hwp Hocc Hin.
  - reflexivity.
  - pose proof (lit_clean j j b c ps Hwp Hocc) as Hc.
    rewrite !masked_cons_lit in *. cbn [replace_from]. rewrite Hc.
    f_equal. inversion Hwp; subst.
    eapply IH; eauto.
    + rewrite original_cons_lit in Hocc. eapply occurs_tail; eauto.
    + intros i term H. apply Hin. now right.
  - inversion Hwp as [| |i' term' ps' Hterm Hnext Hwp1]; subst.
    destruct (Hin i term (or_introl eq_refl)) as [Hi Heq].
    assert (IH' : replace_from (marker j) term_j (masked_upto j ps) 0
                  = masked_upto (Datatypes.S j) ps).
    { eapply IH; eauto.
      - rewrite original_cons_tok in Hocc. eapply occurs_app_r; eauto.
      - intros i0 term0 H. apply Hin. now right. }
    change (masked_upto j (Tok i term :: ps))
      with ((if (i <? j)%nat then term else marker i) ++ masked_upto j ps).
    change (masked_upto (Datatypes.S j) (Tok i term :: ps))
      with ((if (i <? Datatypes.S j)%nat then term else marker i)
            ++ masked_upto (Datatypes.S j) ps).
    destruct (lt_eq_lt_dec i j) as [[Hlt|Heqij]|Hgt].
    + replace (i <? j)%nat with true by (symmetry; apply Nat.ltb_lt; lia).
      replace (i <? Datatypes.S j)%nat with true
        by (symmetry; apply Nat.ltb_lt; lia).
      rewrite replace_from_clean, IH'; auto.
      intros a1 a2 E Ha2. eapply term_clean; eauto.
    + subst i. rewrite (Heq eq_refl).
      replace (j <? j)%nat with false by (symmetry; apply Nat.ltb_ge; lia).
      replace (j <? Datatypes.S j)%nat with true
        by (symmetry; apply Nat.ltb_lt; lia).
      rewrite replace_from_hit, IH'; auto.
      rewrite marker_eq. discriminate.
    + replace (i <? j)%nat with false by (symmetry; apply Nat.ltb_ge; lia).
      replace (i <? Datatypes.S j)%nat with false
        by (symmetry; apply Nat.ltb_ge; lia).
      rewrite replace_from_clean, IH'; auto.
      intros a1 a2 E Ha2. eapply marker_clean; eauto. lia.
Qed.

Lemma masked_all (n : nat) (ps : list piece) :
  (forall i term, In (Tok i term) ps -> (i < n)%nat) ->
  masked_upto n ps = original ps.
Proof.
  induction ps as [|[c|i term] ps IH]; intros H; auto.
  - rewrite masked_cons_lit, original_cons_lit, IH; auto.
    intros i term Hin. apply (H i term). now right.
  - change (masked_upto n (Tok i term :: ps))
      with ((if (i <? n)%nat then term else marker i) ++ masked_upto n ps).
    rewrite original_cons_tok, IH.
    + replace (i <? n)%nat with true; auto.
      symmetry. apply Nat.ltb_lt. apply (H i term). now left.
    + intros i0 term0 Hin. apply (H i0 term0). now right.
Qed.

(** The loop of [restore_preserved_terms], from index [j] on. *)
Lemma restore_fold (preserved : list text) (ps : list piece) :
  (length preserved <= 10)%nat ->
  well_placed ucd false ps ->
  occurs PRESERVED_ (original ps) = false ->
  (forall i term, In (Tok i term) ps <-> nth_error preserved i = Some term) ->
  forall l j,
    (forall k, nth_error l k = nth_error preserved (j + k)) ->
    fold_left (fun t it => replace (marker (fst it)) (snd it) t)
      (combine (seq j (length l)) l) (masked_upto j ps)
    = masked_upto (j + length l) ps.
Proof.
  intros Hlen Hwp Hocc Hin.
  induction l as [|term l IH]; intros j Hl.
  - simpl. now rewrite Nat.add_0_r.
  - cbn [length seq combine fold_left fst snd].
    assert (Hj : nth_error preserved j = Some term).
    { specialize (Hl 0%nat). rewrite Nat.add_0_r in Hl. now rewrite <- Hl. }
    assert (Hj10 : (j < 10)%nat).
    { assert (j < length preserved)%nat
        by (apply nth_error_Some; congruence). lia. }
    rewrite replace_marker, (restore_step j term ps false); auto.
    + rewrite IH.
      * f_equal. lia.
      * intros k. specialize (Hl (Datatypes.S k)). simpl in Hl.
        rewrite Hl. f_equal. lia.
    + intros i term' H. apply Hin in H. split.
      * assert (i < length preserved)%nat
          by (apply nth_error_Some; congruence). lia.
      * intros ->. congruence.
Qed.

End Restore.

(** C2. On a sentence of thirteen terms restoration does not give the text
    back, whatever the Unicode database: the terms of index 10, 11 and 12
    are masked as ["PRESERVED_10"], ["PRESERVED_11"] and ["PRESERVED_12"],
    and the turn of the loop for index 1 replaces the ["PRESERVED_1"] they
    begin with, so that ["Karan"], ["Delhi"] and the date come back as
    ["Ravi0"], ["Ravi1"] and ["Ravi2"]. *)
Theorem C2_restore_breaks_from_eleven_terms (ucd : Z -> uni_class) :
  length
    (snd (preserve_special_terms ucd
            (py "Amit, Ravi, John, Sara, Tom, Anna, Raj, Maya, Sam, Nina and Karan met in Delhi on 12/05/2023.")))
  = 13%nat /\
  restore_preserved_terms
    (fst (preserve_special_terms ucd
            (py "Amit, Ravi, John, Sara, Tom, Anna, Raj, Maya, Sam, Nina and Karan met in Delhi on 12/05/2023.")))
    (snd (preserve_special_terms ucd
            (py "Amit, Ravi, John, Sara, Tom, Anna, Raj, Maya, Sam, Nina and Karan met in Delhi on 12/05/2023.")))
  = py "Amit, Ravi, John, Sara, Tom, Anna, Raj, Maya, Sam, Nina and Ravi0 met in Ravi1 on Ravi2." /\
  ~ round_trip ucd
      (py "Amit, Ravi, John, Sara, Tom, Anna, Raj, Maya, Sam, Nina and Karan met in Delhi on 12/05/2023.").
Proof.
  split; [vm_compute; reflexivity|]. split; [vm_compute; reflexivity|].
  unfold round_trip. intros H. vm_compute in H. discriminate H.
Qed.

(** ** Placeholders in a masked text *)

Lemma uint_digits_inj (u : Decimal.uint) : forall u',
  uint_digits u = uint_digits u' -> u = u'.
Proof.
  induction u; destruct u'; simpl; intros H; try discriminate;
    try reflexivity; injection H as H; f_equal; auto.
Qed.

Lemma str_of_nat_inj (i j : nat) : str_of_nat i = str_of_nat j -> i = j.
Proof.
  intros H. apply uint_digits_inj in H.
  now apply DecimalNat.Unsigned.to_uint_inj.
Qed.


Section Placeholders.

Variable ucd : Z -> uni_class.





End Placeholders.




(** C9. In ["I met John on 12/05/2023"] the words ["I"] and ["John"] and the
    date are masked, ["John"] by [PRESERVED_1] and the date after it by
    [PRESERVED_2]; restoration gives the text back. *)
Theorem C9_preserve_john_and_date (ucd : Z -> uni_class) :
  let t := py "I met John on 12/05/2023" in
  let masked := fst (preserve_special_terms ucd t) in
  let preserved := snd (preserve_special_terms ucd t) in
  masked = py "PRESERVED_0 met PRESERVED_1 on PRESERVED_2" /\
  preserved = [py "I"; py "John"; py "12/05/2023"] /\
  marker 1 <> marker 2 /\
  restore_preserved_terms masked preserved = t.
Proof.
  cbv zeta. repeat split; try reflexivity. discriminate.
Qed.

(** * Further properties of the code *)

(** ** More on [split_sentences] *)

Lemma spans_open_run (body : text) : forall current rest,
  Forall (fun x => ~ is_terminator x) body ->
  spans current (body ++ rest) = spans (current ++ body) rest.
Proof.
  induction body as [|x body IH]; intros current rest H.
  - now rewrite app_nil_r.
  - inversion H as [|? ? Hx Hbody]; subst. simpl.
    destruct (char_in x terminators) eqn:E; [now destruct Hx|].
    rewrite IH by assumption. now rewrite <- app_assoc.
Qed.

(** X1. A span of [split_sentences] is a sentence of its own: split again,
    it comes back as the one span. *)
Theorem split_sentences_span_atomic (t s : text) :
  In s (split_sentences t) -> split_sentences s = [s].
Proof.
  intros Hin. rewrite !split_sentences_spans in *.
  destruct (spans_shape t [] (Forall_nil _)) as (closed & last & E & Hcl & Hl).
  rewrite E in Hin. apply in_app_or in Hin. destruct Hin as [Hin|Hin].
  - rewrite Forall_forall in Hcl. destruct (Hcl s Hin) as (body & c & -> & Hc & Hb).
    rewrite spans_open_run by assumption. simpl.
    unfold is_terminator in Hc. now rewrite Hc.
  - destruct Hl as [->|(s' & -> & Hne & Hs')]; [destruct Hin|].
    destruct Hin as [<-|[]].
    rewrite <- (app_nil_r s') at 1. rewrite spans_open_run by assumption.
    simpl. destruct s'; [congruence | reflexivity].
Qed.

Lemma split_sentences_span_atomic_witness :
  split_sentences (py " b!") = [py " b!"].
Proof.
  apply (split_sentences_span_atomic (py "a. b! c") (py " b!")).
  simpl. auto.
Defined.

Lemma spans_closed_prefix (a : text) : forall current c b,
  is_terminator c ->
  spans current ((a ++ [c]) ++ b) = spans current (a ++ [c]) ++ spans [] b.
Proof.
  induction a as [|x a IH]; intros current c b Hc.
  - simpl. unfold is_terminator in Hc. now rewrite Hc.
  - simpl. destruct (char_in x terminators).
    + now rewrite IH.
    + now rewrite IH.
Qed.

(** X2. After a terminator the splitter starts afresh: a text that follows
    a terminator is split as it would be on its own. *)
Theorem split_sentences_after_terminator (a b : text) (c : Z) :
  is_terminator c ->
  split_sentences ((a ++ [c]) ++ b)
  = split_sentences (a ++ [c]) ++ split_sentences b.
Proof.
  intros Hc. rewrite !split_sentences_spans. now apply spans_closed_prefix.
Qed.

Lemma split_sentences_after_terminator_witness :
  split_sentences ((py "Hi" ++ [46]) ++ py " Yo! x")
  = split_sentences (py "Hi" ++ [46]) ++ split_sentences (py " Yo! x").
Proof.
  apply (split_sentences_after_terminator (py "Hi") (py " Yo! x") 46).
  reflexivity.
Defined.

Lemma ends_open_snoc (t : text) (c : Z) :
  ends_open (t ++ [c]) = negb (char_in c terminators).
Proof. unfold ends_open. now rewrite rev_app_distr. Qed.

Lemma spans_length (t : text) : forall current,
  length (spans current t)
  = (count_terminators t
     + if match t with [] => negb (is_empty current) | _ :: _ => ends_open t end
       then 1 else 0)%nat.
Proof.
  induction t as [|x t IH]; intros current.
  - simpl. now destruct current.
  - cbn [spans]. unfold count_terminators. cbn [filter].
    assert (Hend : ends_open (x :: t)
                   = match t with
                     | [] => negb (char_in x terminators)
                     | _ :: _ => ends_open t
                     end).
    { destruct t as [|y t]; [reflexivity|].
      unfold ends_open. cbn [rev].
      destruct (rev t ++ [y]) eqn:E; [now destruct (rev t)|reflexivity]. }
    rewrite Hend.
    destruct (char_in x terminators) eqn:E; cbn [length]; rewrite IH;
      fold (count_terminators t); destruct t; simpl; try lia.
    destruct (current ++ [x]) eqn:E'; [now destruct current|simpl; lia].
Qed.

(** X3. [split_sentences] returns one span for each terminator, and one
    more for the characters after the last terminator when there are
    some. *)
Theorem split_sentences_length (t : text) :
  length (split_sentences t)
  = (count_terminators t + if ends_open t then 1 else 0)%nat.
Proof.
  rewrite split_sentences_spans, spans_length. now destruct t.
Qed.

(** ** More on [detect_language_mix] *)

(** X4. The scripts of a text are those of its parts: each answer of the
    detector on [a ++ b] is the disjunction of its answers on [a] and
    on [b]. *)
Theorem detect_language_mix_app (ucd : Z -> uni_class) (a b : text) :
  detect_language_mix ucd (a ++ b)
  = (fst (detect_language_mix ucd a) || fst (detect_language_mix ucd b),
     snd (detect_language_mix ucd a) || snd (detect_language_mix ucd b)).
Proof. rewrite !detect_language_mix_spec. simpl. now rewrite !existsb_app. Qed.

(** ** What the proper-noun pattern matches *)

Section ProperNoun.

Variable ucd : Z -> uni_class.

Lemma take_drop_while (p : Z -> bool) (s : text) :
  s = take_while p s ++ drop_while p s.
Proof. induction s as [|c s IH]; simpl; auto. destruct (p c); simpl; congruence. Qed.

Lemma take_while_all (p : Z -> bool) (s : text) :
  forallb p (take_while p s) = true.
Proof. induction s as [|c s IH]; simpl; auto. destruct (p c) eqn:E; simpl; auto. now rewrite E. Qed.

Lemma drop_while_head (p : Z -> bool) (s : text) :
  holds_at p (hd_error (drop_while p s)) = false.
Proof. induction s as [|c s IH]; simpl; auto. destruct (p c) eqn:E; simpl; auto. Qed.

(** A greedy run of a class of word characters, after a word character and
    before [\b]: every shorter run ends between two word characters, so
    the match is the whole run or none. *)
Lemma star_cls_then_boundary (p : Z -> bool) (m : text) :
  (forall c, p c = true -> is_word ucd c = true) ->
  forall fuel prev rest,
    forallb p m = true ->
    holds_at p (hd_error rest) = false ->
    word_at ucd prev = true ->
    (length (m ++ rest) <= fuel)%nat ->
    star_loop (run ucd (Cls p)) (at_end ucd) fuel prev (m ++ rest)
    = at_end ucd (last_of prev m) rest.
Proof.
  intros Hp. induction m as [|c m IH]; intros fuel prev rest Hm Hrest Hprev Hfuel.
  - simpl. destruct fuel as [|fuel]; [reflexivity|]. simpl.
    destruct rest as [|x rest]; [reflexivity|]. simpl in Hrest.
    now rewrite Hrest.
  - simpl in Hm. apply andb_true_iff in Hm. destruct Hm as [Hc Hm].
    destruct fuel as [|fuel]; [simpl in Hfuel; lia|].
    cbn [app star_loop run]. rewrite Hc.
    replace (length (m ++ rest) <? length (c :: m ++ rest))%nat with true
      by (symmetry; apply Nat.ltb_lt; simpl; lia).
    rewrite IH; auto.
    + change (last_of prev (c :: m)) with (last_of (Some c) m).
      destruct (at_end ucd (last_of (Some c) m) rest); [reflexivity|].
      unfold at_end. cbn [run]. unfold at_boundary. cbn [hd_error].
      change (word_at ucd (Some c)) with (is_word ucd c).
      now rewrite Hprev, (Hp c Hc).
    + simpl. now apply Hp.
    + simpl in Hfuel. lia.
Qed.

(** X5. The proper-noun pattern matches at a position exactly when an
    ASCII capital stands there after a non-word character or at the start,
    and the longest run of ASCII letters after it ends before a non-word
    character or at the end; the match is the capital with that whole
    run. *)
Theorem proper_noun_match (prev : option Z) (s : text) :
  match_at ucd proper_noun_pattern prev s
  = match s with
    | [] => None
    | c :: s' =>
        if ascii_upper c && negb (word_at ucd prev)
           && negb (word_at ucd (hd_error (drop_while ascii_letter s')))
        then Some (drop_while ascii_letter s')
        else None
    end.
Proof.
  unfold match_at, proper_noun_pattern. cbn [run].
  destruct s as [|c s'].
  - now destruct (at_boundary ucd prev []).
  - unfold at_boundary at 1. cbn [hd_error].
    change (word_at ucd (Some c)) with (is_word ucd c).
    destruct (ascii_upper c) eqn:Hc.
    2:{ now destruct (xorb (word_at ucd prev) (is_word ucd c)). }
    rewrite (ascii_letter_word ucd c (ascii_upper_letter c Hc)).
    destruct (word_at ucd prev); [reflexivity|]. cbn [xorb andb negb].
    change (fun (prev' : option Z) (s'0 : text) =>
              run ucd Bnd prev' s'0 (fun _ rest => Some rest))
      with (at_end ucd).
    pose proof (take_drop_while ascii_letter s') as E.
    pose proof (take_while_all ascii_letter s') as Hm.
    pose proof (drop_while_head ascii_letter s') as Hrest.
    set (m := take_while ascii_letter s') in *.
    set (rest := drop_while ascii_letter s') in *.
    rewrite E.
    rewrite (star_cls_then_boundary ascii_letter m (ascii_letter_word ucd));
      auto.
    + unfold at_end. cbn [run]. unfold at_boundary.
      assert (Hl : word_at ucd (last_of (Some c) m) = true).
      { apply (holds_at_weaken ascii_letter); [apply ascii_letter_word|].
        apply holds_last_of; auto. simpl. now apply ascii_upper_letter. }
      rewrite Hl. now destruct (word_at ucd (hd_error rest)).
    + simpl. apply ascii_letter_word. now apply ascii_upper_letter.
Qed.

End ProperNoun.

(** ** More on [preserve_special_terms] *)

Section PreserveMore.

Variable ucd : Z -> uni_class.

Lemma sub_from_all_copied {St : Type} (r : regex)
    (repl : text -> St -> text * St) (t : text) (st : St) :
  (forall a1 a2, t = a1 ++ a2 -> a2 <> [] ->
     match_at ucd r (last_of None a1) a2 = None) ->
  sub_from ucd r repl None t 0 st = (t, st).
Proof.
  intros H. rewrite <- (app_nil_r t) at 1. rewrite sub_from_copy.
  - simpl. now rewrite app_nil_r.
  - intros a1 a2 E Ha2. rewrite app_nil_r. now apply H.
Qed.

(** X6. A text with no ASCII capital and no digit goes through
    [preserve_special_terms] unchanged, and nothing is preserved. *)
Theorem preserve_plain_text (t : text) :
  forallb (fun c => negb (ascii_upper c) && negb (is_digit ucd c)) t = true ->
  preserve_special_terms ucd t = (t, []).
Proof.
  intros Ht. unfold preserve_special_terms, re_sub.
  assert (Hin : forall a1 y a2, t = a1 ++ y :: a2 ->
                  ascii_upper y = false /\ is_digit ucd y = false).
  { intros a1 y a2 E. rewrite forallb_forall in Ht.
    specialize (Ht y). rewrite E in Ht.
    specialize (Ht (in_elt y a1 a2)).
    apply andb_true_iff in Ht. destruct Ht as [H1 H2].
    apply negb_true_iff in H1. apply negb_true_iff in H2. auto. }
  rewrite sub_from_all_copied.
  - rewrite sub_from_all_copied; auto.
    intros a1 a2 E Ha2. destruct a2 as [|y a2]; [congruence|].
    destruct (match_at ucd (number_pattern ucd) (last_of None a1) (y :: a2))
      as [rest|] eqn:Em; auto.
    apply number_token in Em. destruct Em as [_ Hd]. simpl in Hd.
    destruct (Hin a1 y a2 E). congruence.
  - intros a1 a2 E Ha2. destruct a2 as [|y a2]; [congruence|].
    rewrite proper_noun_match. destruct (Hin a1 y a2 E) as [-> _].
    reflexivity.
Qed.

End PreserveMore.

Lemma preserve_plain_text_witness :
  preserve_special_terms ucd_ascii (py "main movie dekhne ja raha hoon")
  = (py "main movie dekhne ja raha hoon", []).
Proof.
  apply (preserve_plain_text ucd_ascii). reflexivity.
Defined.

(** X7. Every preserved term is a text that is not empty, and is made of
    ASCII letters only or of digits and the separators [-/.] only. *)
Theorem preserved_terms_shape (ucd : Z -> uni_class) (t term : text) :
  In term (snd (preserve_special_terms ucd t)) ->
  term <> [] /\
  (forallb ascii_letter term = true \/
   forallb (fun c => is_digit ucd c || is_sep c) term = true).
Proof.
  intros Hin. apply In_nth_error in Hin. destruct Hin as (i & Hi).
  destruct (preserve_pieces ucd t) as (ps & _ & _ & Hwp & Hps & _).
  apply Hps in Hi. exact (wp_term_ok ucd false ps Hwp i term Hi).
Qed.

Lemma preserved_terms_shape_witness :
  py "12/05/2023" <> [] /\
  (forallb ascii_letter (py "12/05/2023") = true \/
   forallb (fun c => is_digit ucd_ascii c || is_sep c) (py "12/05/2023") = true).
Proof.
  apply (preserved_terms_shape ucd_ascii (py "I met John on 12/05/2023")).
  simpl. auto.
Defined.

(** The indices of the terms of a piece list. *)
Lemma tok_indices_bound (ucd : Z -> uni_class) (b : bool) (ps : list piece) :
  well_placed ucd b ps ->
  forall l : list nat,
    NoDup l -> (forall i, In i l -> exists term, In (Tok i term) ps) ->
    (length l <= length (original ps))%nat.
Proof.
  induction 1 as [b|b c ps _ IH|i0 term0 ps Hterm _ _ IH]; intros l Hnd Hl.
  - destruct l as [|i l]; [simpl; lia|].
    destruct (Hl i (or_introl eq_refl)) as (term & []).
  - rewrite original_cons_lit. simpl. specialize (IH l Hnd).
    assert (length l <= length (original ps))%nat; [|lia].
    apply IH. intros i Hi. destruct (Hl i Hi) as (term & [H|H]);
      [discriminate | eauto].
  - rewrite original_cons_tok, length_app.
    assert (Hlen : (1 <= length term0)%nat).
    { destruct Hterm as [Hne _]. destruct term0; [congruence | simpl; lia]. }
    assert (Hrm : (length (remove Nat.eq_dec i0 l) <= length (original ps))%nat).
    { apply IH.
      - clear -Hnd. induction Hnd as [|x l Hx Hnd IHl]; simpl; [constructor|].
        destruct (Nat.eq_dec i0 x); auto. constructor; auto.
        intros Hc. apply in_remove in Hc. tauto.
      - intros i Hi. apply in_remove in Hi. destruct Hi as [Hi Hne].
        destruct (Hl i Hi) as (term & [H|H]); [|eauto].
        injection H as -> _. congruence. }
    assert (Hone : (length l <= Datatypes.S (length (remove Nat.eq_dec i0 l)))%nat).
    { clear -Hnd. induction Hnd as [|x l Hx Hnd IHl]; simpl; [lia|].
      destruct (Nat.eq_dec i0 x) as [->|Hne]; simpl; [|lia].
      rewrite notin_remove by assumption. lia. }
    lia.
Qed.

(** X8. No more terms are preserved than the text has characters. *)
Theorem preserved_terms_bound (ucd : Z -> uni_class) (t : text) :
  (length (snd (preserve_special_terms ucd t)) <= length t)%nat.
Proof.
  destruct (preserve_pieces ucd t) as (ps & _ & Ho & Hwp & Hps & _).
  pose proof (tok_indices_bound ucd false ps Hwp
                (seq 0 (length (snd (preserve_special_terms ucd t))))
                (seq_NoDup _ 0)) as H.
  rewrite length_seq, Ho in H. apply H.
  intros i Hi. apply in_seq in Hi.
  destruct (nth_error (snd (preserve_special_terms ucd t)) i) as [term|] eqn:E.
  - exists term. now apply Hps.
  - apply nth_error_None in E. lia.
Qed.

(** X9. The tokens of different indices are different texts. *)
Theorem marker_injective (i j : nat) : marker i = marker j -> i = j.
Proof.
  unfold marker. intros H. apply app_inv_head in H. now apply str_of_nat_inj.
Qed.

Lemma marker_injective_witness : 10%nat = 10%nat.
Proof. apply (marker_injective 10 10). reflexivity. Defined.

(** ** More on [restore_preserved_terms] *)

Lemma occurs_longer (p q : text) (s : text) :
  occurs p s = false -> occurs (p ++ q) s = false.
Proof.
  induction s as [|c s IH]; intros H.
  - simpl in *. apply orb_false_iff in H. destruct H as [H _].
    destruct (starts_with (p ++ q) []) eqn:E; auto.
    apply starts_with_prefix in E. congruence.
  - pose proof (occurs_head p _ H) as Hh. apply occurs_tail in H.
    cbn [occurs]. rewrite (IH H), orb_false_r.
    destruct (starts_with (p ++ q) (c :: s)) eqn:E; auto.
    apply starts_with_prefix in E. congruence.
Qed.

Lemma replace_from_absent (old new : text) (s : text) :
  occurs old s = false -> replace_from old new s 0 = s.
Proof.
  induction s as [|c s IH]; intros H; auto.
  cbn [replace_from]. rewrite (occurs_head old _ H).
  f_equal. apply IH. eapply occurs_tail; eauto.
Qed.

(** X10. A text in which ["PRESERVED_"] does not occur is left as it is by
    [restore_preserved_terms], whatever the list of terms. *)
Theorem restore_without_placeholders (t : text) (preserved : list text) :
  occurs PRESERVED_ t = false ->
  restore_preserved_terms t preserved = t.
Proof.
  intros H. unfold restore_preserved_terms.
  induction (enumerate preserved) as [|[i term] l IH]; auto.
  cbn [fold_left fst snd]. rewrite replace_marker, replace_from_absent; auto.
  unfold marker. now apply occurs_longer.
Qed.

Lemma restore_without_placeholders_witness :
  restore_preserved_terms (py "I saw a film") [py "I"; py "John"]
  = py "I saw a film".
Proof.
  apply (restore_without_placeholders (py "I saw a film") [py "I"; py "John"]).
  reflexivity.
Defined.

Section RestoreMore.

Variable ucd : Z -> uni_class.

Lemma restore_fold_tokens (preserved : list text) (ps : list piece) :
  (length preserved <= 10)%nat ->
  well_placed ucd false ps ->
  occurs PRESERVED_ (original ps) = false ->
  (forall i term, In (Tok i term) ps -> nth_error preserved i = Some term) ->
  forall l j,
    (forall k, nth_error l k = nth_error preserved (j + k)) ->
    fold_left (fun t it => replace (marker (fst it)) (snd it) t)
      (combine (seq j (length l)) l) (masked_upto j ps)
    = masked_upto (j + length l) ps.
Proof.
  intros Hlen Hwp Hocc Hin.
  induction l as [|term l IH]; intros j Hl.
  - simpl. now rewrite Nat.add_0_r.
  - cbn [length seq combine fold_left fst snd].
    assert (Hj : nth_error preserved j = Some term).
    { specialize (Hl 0%nat). rewrite Nat.add_0_r in Hl. now rewrite <- Hl. }
    assert (Hj10 : (j < 10)%nat).
    { assert (j < length preserved)%nat
        by (apply nth_error_Some; congruence). lia. }
    rewrite replace_marker, (restore_step ucd j term ps false); auto.
    + rewrite IH.
      * f_equal. lia.
      * intros k. specialize (Hl (Datatypes.S k)). simpl in Hl.
        rewrite Hl. f_equal. lia.
    + intros i term' H. apply Hin in H. split.
      * assert (i < length preserved)%nat
          by (apply nth_error_Some; congruence). lia.
      * intros ->. congruence.
Qed.

(** X11. Restoration into a text that the service changed.  Let the text
    be made of characters and of tokens [PRESERVED_<i>], every token
    standing for the term at index [i] of a list of at most ten terms; let
    every such term be as [preserve_special_terms] makes them, not empty and
    of ASCII letters only or of digits and [-/.] only; let every token
    stand between non-word characters or ends of the text; and let
    ["PRESERVED_"] not occur in the text that has the terms in the places
    of the tokens.  Then [restore_preserved_terms] returns that text: the
    term of index [i] at every place of the token of index [i], and
    nothing else changed; tokens may have moved, be repeated or be
    missing. *)
Theorem restore_well_placed_tokens (ps : list piece) (preserved : list text) :
  (length preserved <= 10)%nat ->
  well_placed ucd false ps ->
  occurs PRESERVED_ (original ps) = false ->
  (forall i term, In (Tok i term) ps -> nth_error preserved i = Some term) ->
  restore_preserved_terms (masked_upto 0 ps) preserved = original ps.
Proof.
  intros Hlen Hwp Hocc Hin. unfold restore_preserved_terms, enumerate.
  rewrite (restore_fold_tokens preserved ps Hlen Hwp Hocc Hin preserved 0%nat)
    by reflexivity.
  apply masked_all. intros i term H. apply Hin in H.
  apply nth_error_Some. congruence.
Qed.

End RestoreMore.

Lemma restore_well_placed_tokens_witness :
  restore_preserved_terms (py "PRESERVED_1 a PRESERVED_1") [py "I"; py "John"]
  = py "John a John".
Proof.
  apply (restore_well_placed_tokens ucd_ascii
           [Tok 1 (py "John"); Lit 32; Lit 97; Lit 32; Tok 1 (py "John")]
           [py "I"; py "John"]).
  - simpl. lia.
  - assert (Hterm : term_ok ucd_ascii (py "John"))
      by (split; [discriminate | left; reflexivity]).
    constructor; [exact Hterm | reflexivity |].
    constructor. constructor. constructor.
    change (is_word ucd_ascii 32) with false.
    constructor; [exact Hterm | exact I | constructor].
  - reflexivity.
  - intros i term [H|[H|[H|[H|[H|[]]]]]]; try discriminate;
      now injection H as <- <-.
Defined.

(** X16. On a text in which ["PRESERVED_"] does not occur and of which at
    most ten terms are preserved, restoring the preserved terms into the
    masked text gives the text back. *)
Theorem restore_inverts_preserve (ucd : Z -> uni_class) (t : text) :
  occurs PRESERVED_ t = false ->
  (length (snd (preserve_special_terms ucd t)) <= 10)%nat ->
  round_trip ucd t.
Proof.
  intros Hocc Hlen. unfold round_trip.
  destruct (preserve_pieces ucd t) as (ps & Hm & Ho & Hwp & Hin & _).
  rewrite Hm. unfold restore_preserved_terms, enumerate.
  rewrite <- Ho in Hocc.
  rewrite (restore_fold ucd _ ps Hlen Hwp Hocc Hin _ 0%nat) by reflexivity.
  rewrite masked_all; auto.
  intros i term H. apply Hin in H. apply nth_error_Some. congruence.
Qed.

Lemma restore_inverts_preserve_witness :
  round_trip ucd_ascii (py "I met John on 12/05/2023").
Proof.
  apply (restore_inverts_preserve ucd_ascii (py "I met John on 12/05/2023")).
  - reflexivity.
  - vm_compute. lia.
Defined.

(** Neither condition can be left out, whatever the Unicode database: in
    ["PRESERVED_0 John"] the word becomes a second ["PRESERVED_0"], and
    restoration puts ["John"] in both places; and of eleven words the last
    is masked as ["PRESERVED_10"], which the loop reads as ["PRESERVED_1"]
    followed by a zero. *)
Lemma round_trip_conditions :
  (~ exists ucd, round_trip ucd (py "PRESERVED_0 John")) /\
  (~ exists ucd, round_trip ucd (py "A B C D E F G H I J K")).
Proof.
  split; intros [ucd H]; unfold round_trip in H; vm_compute in H;
    discriminate H.
Qed.

(** ** More on [translate] *)

Section TranslateMore.

Variable S : Type.
Variable service : GoogleTranslator -> text -> S -> outcome text * S.
Variable ucd : Z -> uni_class.

(** [translate] on any text, as a map over its sentences. *)
Lemma translate_as_map (t : text) (w : world S) :
  translate S service ucd t w
  = try_except S
      (if forallb isspace t then ret S []
       else bind S (mapM S (route S service ucd)
                      (filter nonblank (split_sentences t)))
              (fun parts => ret S (join (py " ") parts)))
      (report S) w.
Proof.
  unfold translate, try_except, translate_body. rewrite strip_blank.
  destruct (forallb isspace t); [reflexivity|].
  apply try_except_cong.
  rewrite (bind_cong S _ _ _ _ (translate_loop_mapM S service ucd _ [] w)).
  rewrite bind_bind. apply bind_ext. reflexivity.
Qed.

Lemma blank_has_no_sentence (t : text) :
  forallb isspace t = true -> filter nonblank (split_sentences t) = [].
Proof.
  intros Ht. rewrite split_sentences_spans.
  pose proof (spans_concat t []) as Hc. simpl in Hc.
  assert (H : forall s, In s (spans [] t) -> nonblank s = false).
  { intros s Hs. unfold nonblank. apply negb_false_iff.
    apply forallb_forall. intros c Hcin. rewrite forallb_forall in Ht.
    apply Ht. rewrite <- Hc. apply in_concat. eauto. }
  clear Hc. induction (spans [] t) as [|s l IH]; auto.
  simpl. rewrite (H s (or_introl eq_refl)). apply IH.
  intros s' Hs'. apply H. now right.
Qed.

(** What a map of [route] adds to the log: at most two requests for each
    sentence. *)
Lemma mapM_route_requests (l : list text) : forall w,
  exists new,
    calls (snd (mapM S (route S service ucd) l w)) = calls w ++ new /\
    (length new <= 2 * length l)%nat.
Proof.
  induction l as [|s l IH]; intros w.
  - exists []. simpl. now rewrite app_nil_r.
  - cbn [mapM]. unfold bind at 1.
    assert (Hr : exists new1,
               calls (snd (route S service ucd s w)) = calls w ++ new1 /\
               (length new1 <= 2)%nat).
    { unfold route.
      destruct (detect_language_mix ucd s) as [[|] [|]]; cbn [andb];
        unfold bind, translate_with;
        repeat match goal with
               | |- context [service ?g ?x ?y] =>
                   destruct (service g x y) as [[?|?] ?]; cbn
               end;
        eexists; (split; [rewrite <- ?app_assoc; reflexivity | simpl; lia]). }
    destruct Hr as (new1 & Hc1 & Hl1).
    destruct (route S service ucd s w) as [[r|e] w1]; cbn [snd] in *.
    + destruct (IH w1) as (new2 & Hc2 & Hl2). unfold bind.
      destruct (mapM S (route S service ucd) l w1) as [[rs|e] w2];
        cbn [snd] in Hc2; unfold ret; cbn [snd]; exists (new1 ++ new2);
        rewrite Hc2, Hc1, app_assoc, length_app;
        (split; [reflexivity | cbn [length]; lia]).
    + exists new1. split; auto. cbn [length]. lia.
Qed.

(** X12. [translate] makes at most two requests for each sentence that is
    not of whitespace only, and none beyond those. *)
Theorem translate_request_bound (t : text) (w : world S) (new : list call) :
  calls (snd (translate S service ucd t w)) = calls w ++ new ->
  (length new <= 2 * length (filter nonblank (split_sentences t)))%nat.
Proof.
  rewrite translate_as_map. unfold try_except.
  destruct (forallb isspace t) eqn:Ht.
  - cbn. intros H. rewrite <- (app_nil_r (calls w)) in H at 1.
    apply app_inv_head in H. subst new. simpl. lia.
  - destruct (mapM_route_requests (filter nonblank (split_sentences t)) w)
      as (new0 & Hc & Hl).
    unfold bind at 1.
    destruct (mapM S (route S service ucd) (filter nonblank (split_sentences t)) w)
      as [[rs|[m|m]] w1];
      unfold ret, report, bind, st_error; cbn [fst snd calls is_Exception] in *;
      intros H; rewrite Hc in H; apply app_inv_head in H; now subst.
Qed.

End TranslateMore.

Lemma translate_request_bound_witness :
  (length [ {| via := auto_translator; sent := py "Hi.";
               got := Returns (py "Hi.") |};
            {| via := auto_translator; sent := py " Yo.";
               got := Raises (Exception (py "429 Too Many Requests")) |} ]
   <= 2 * length (filter nonblank (split_sentences (py "Hi. Yo. Go."))))%nat.
Proof.
  apply (translate_request_bound nat flaky_service ucd_ascii
           (py "Hi. Yo. Go.") (fresh 0%nat)).
  reflexivity.
Defined.

Section TranslateLatin.

Variable S : Type.
Variable service : GoogleTranslator -> text -> S -> outcome text * S.
Variable ucd : Z -> uni_class.

Lemma mapM_ext {A B} (f g : A -> M S B) (l : list A) :
  (forall x, In x l -> forall w, f x w = g x w) ->
  forall w, mapM S f l w = mapM S g l w.
Proof.
  induction l as [|x l IH]; intros H w; auto.
  cbn [mapM]. unfold bind at 1 3. rewrite (H x (or_introl eq_refl)).
  destruct (g x w) as [[y|e] w1]; auto.
  unfold bind. rewrite IH; auto. intros x' Hx'. apply H. now right.
Qed.

Lemma translate_with_run (g : GoogleTranslator) (s : text) (w : world S) :
  exists o s1,
    translate_with S service g s w
    = (o, {| remote := s1;
             calls := calls w ++ [{| via := g; sent := s; got := o |}];
             shown := shown w |}).
Proof.
  unfold translate_with. destruct (service g s (remote w)) as [o s1]. eauto.
Qed.

(** A map of requests to one translator: one request for each text, in
    order, up to the first that raises. *)
Lemma mapM_translate_with (g : GoogleTranslator) (l : list text) : forall w,
  exists new,
    calls (snd (mapM S (translate_with S service g) l w)) = calls w ++ new /\
    shown (snd (mapM S (translate_with S service g) l w)) = shown w /\
    Forall (fun c => via c = g) new /\
    match fst (mapM S (translate_with S service g) l w) with
    | Returns rs =>
        map sent new = l /\ answers new = rs /\ Forall returned new
    | Raises _ => ~ Forall returned new
    end.
Proof.
  induction l as [|s l IH]; intros w.
  - exists []. simpl. rewrite app_nil_r. repeat split; constructor.
  - destruct (translate_with_run g s w) as (o & s1 & E).
    set (c := {| via := g; sent := s; got := o |}) in *.
    set (w1 := {| remote := s1; calls := calls w ++ [c]; shown := shown w |}) in *.
    assert (Em : mapM S (translate_with S service g) (s :: l) w
                 = match o with
                   | Returns r =>
                       match mapM S (translate_with S service g) l w1 with
                       | (Returns rs, w2) => (Returns (r :: rs), w2)
                       | (Raises e, w2) => (Raises e, w2)
                       end
                   | Raises e => (Raises e, w1)
                   end).
    { cbn [mapM]. unfold bind at 1. rewrite E. destruct o; [|reflexivity].
      unfold bind, ret.
      now destruct (mapM S (translate_with S service g) l w1) as [[rs|e] w2]. }
    rewrite Em. clear Em. destruct o as [r|e].
    + destruct (IH w1) as (new & Hc & Hs & Hv & Ho).
      destruct (mapM S (translate_with S service g) l w1) as [[rs|e] w2];
        cbn [fst snd] in *; exists (c :: new); rewrite Hc, Hs;
        subst w1; cbn [calls shown]; rewrite <- app_assoc;
        (split; [reflexivity|]); (split; [reflexivity|]);
        (split; [now constructor|]).
      * destruct Ho as (Hsent & Hans & Hret). repeat split.
        -- simpl. now rewrite Hsent.
        -- simpl. now rewrite Hans.
        -- constructor; auto. now exists r.
      * intros H. inversion H; subst. auto.
    + cbn [fst snd]. exists [c]. subst w1. cbn [calls shown].
      repeat split; auto.
      intros H. inversion H as [|? ? [v Hv] _]; subst. discriminate.
Qed.

Lemma existsb_concat_false {A} (p : A -> bool) (l : list (list A)) :
  existsb p (concat l) = false ->
  forall s, In s l -> existsb p s = false.
Proof.
  induction l as [|x l IH]; intros H s Hs; [destruct Hs|].
  simpl in H. rewrite existsb_app in H. apply orb_false_iff in H.
  destruct H as [Hx Hl]. destruct Hs as [<-|Hs]; auto.
Qed.

(** X13. A text without a Devanagari character is handled by the
    auto-to-English translator alone; and when every request returned,
    there was one request for each sentence that is not of whitespace
    only, in order, the sentence being what was sent, the result is the
    answers joined by one space, and nothing is shown. *)
Theorem translate_without_devanagari
    (t : text) (w : world S) (new : list call) :
  existsb (in_range 2304 2431) t = false ->
  calls (snd (translate S service ucd t w)) = calls w ++ new ->
  Forall (fun c => via c = {| source := auto; target := en |}) new /\
  (Forall returned new ->
   map sent new = filter nonblank (split_sentences t) /\
   fst (translate S service ucd t w) = Returns (join (py " ") (answers new)) /\
   shown (snd (translate S service ucd t w)) = shown w).
Proof.
  intros Hdev. rewrite translate_as_map. unfold try_except.
  destruct (forallb isspace t) eqn:Ht.
  - unfold ret. cbn [fst snd]. intros H.
    rewrite <- (app_nil_r (calls w)) in H at 1.
    apply app_inv_head in H. subst new.
    rewrite blank_has_no_sentence by assumption. repeat split; constructor.
  - unfold bind at 1 2 3.
    rewrite (mapM_ext (route S service ucd)
               (translate_with S service auto_translator)).
    2:{ intros s Hs w0. unfold route. rewrite detect_language_mix_spec.
        rewrite (existsb_concat_false _ (split_sentences t)); auto.
        - rewrite split_sentences_spans, spans_concat. exact Hdev.
        - apply filter_In in Hs. tauto. }
    destruct (mapM_translate_with auto_translator
                (filter nonblank (split_sentences t)) w)
      as (new0 & Hc & Hs & Hv & Ho).
    destruct (mapM S (translate_with S service auto_translator)
                (filter nonblank (split_sentences t)) w) as [[rs|[m|m]] w1];
      unfold ret, report, bind, st_error;
      cbn [fst snd calls shown is_Exception] in *;
      intros H; rewrite Hc in H; apply app_inv_head in H;
      subst new0; split; auto.
    + intros _. destruct Ho as (Hsent & Hans & _). now rewrite Hans.
    + intros Hret. now destruct Ho.
    + intros Hret. now destruct Ho.
Qed.

(** X14. [translate] shows an error only after a request raised: when all
    the requests it made returned, nothing is shown. *)
Theorem translate_shows_only_after_raise
    (t : text) (w : world S) (new : list call) :
  calls (snd (translate S service ucd t w)) = calls w ++ new ->
  Forall returned new ->
  shown (snd (translate S service ucd t w)) = shown w.
Proof.
  intros Hnew Hret.
  destruct (traced_translate_body S service ucd t w) as (new0 & Hc0 & Hs0 & H0).
  destruct (translate_cases S service ucd t w)
    as [(r & Hb & Ht) | [(m0 & w1 & Hb & Ht) | (m0 & w1 & Hb & Ht)]];
    rewrite Ht in *; rewrite Hb in *; cbn [fst snd calls shown] in *.
  - exact Hs0.
  - exfalso. rewrite Hc0 in Hnew. apply app_inv_head in Hnew. subst new0.
    destruct H0 as (before & c & -> & _ & Hc).
    rewrite Forall_forall in Hret.
    destruct (Hret c) as [v Hv]; [apply in_or_app; right; now left|].
    congruence.
  - exact Hs0.
Qed.

End TranslateLatin.

Lemma translate_without_devanagari_witness :
  Forall (fun c => via c = {| source := auto; target := en |})
    [ {| via := auto_translator; sent := py "Hi."; got := Returns (py "Hi.") |};
      {| via := auto_translator; sent := py " Yo!"; got := Returns (py " Yo!") |} ]
  /\
  (Forall returned
     [ {| via := auto_translator; sent := py "Hi."; got := Returns (py "Hi.") |};
       {| via := auto_translator; sent := py " Yo!";
          got := Returns (py " Yo!") |} ] ->
   map sent
     [ {| via := auto_translator; sent := py "Hi."; got := Returns (py "Hi.") |};
       {| via := auto_translator; sent := py " Yo!";
          got := Returns (py " Yo!") |} ]
   = filter nonblank (split_sentences (py "Hi. Yo!")) /\
   fst (translate unit echo_service ucd_ascii (py "Hi. Yo!") (fresh tt))
   = Returns
       (join (py " ")
          (answers
             [ {| via := auto_translator; sent := py "Hi.";
                  got := Returns (py "Hi.") |};
               {| via := auto_translator; sent := py " Yo!";
                  got := Returns (py " Yo!") |} ])) /\
   shown (snd (translate unit echo_service ucd_ascii (py "Hi. Yo!") (fresh tt)))
   = shown (fresh tt)).
Proof.
  apply (translate_without_devanagari unit echo_service ucd_ascii
           (py "Hi. Yo!") (fresh tt)).
  - reflexivity.
  - reflexivity.
Defined.

Lemma translate_shows_only_after_raise_witness :
  shown (snd (translate unit echo_service ucd_ascii (py "Hi. Yo!") (fresh tt)))
  = shown (fresh tt).
Proof.
  apply (translate_shows_only_after_raise unit echo_service ucd_ascii
           (py "Hi. Yo!") (fresh tt)
           [ {| via := auto_translator; sent := py "Hi.";
                got := Returns (py "Hi.") |};
             {| via := auto_translator; sent := py " Yo!";
                got := Returns (py " Yo!") |} ]).
  - reflexivity.
  - repeat constructor; eexists; reflexivity.
Defined.

(** ** What the number pattern matches *)

Section Number.

Variable ucd : Z -> uni_class.

Lemma digit_not_sep (y : Z) : is_digit ucd y = true -> is_sep y = false.
Proof.
  intros Hy. destruct (is_sep y) eqn:E; auto.
  unfold is_sep, char_in in E. change (py "-/.") with [45; 47; 46] in E.
  cbn [existsb] in E. rewrite !orb_true_iff, !Z.eqb_eq in E.
  destruct E as [->|[->|[->|E]]]; discriminate.
Qed.

Lemma sep_not_word (x : Z) : is_sep x = true -> is_word ucd x = false.
Proof.
  unfold is_sep, char_in. change (py "-/.") with [45; 47; 46].
  cbn [existsb]. rewrite !orb_true_iff, !Z.eqb_eq.
  intros [->|[->|[->|E]]]; [reflexivity..|discriminate].
Qed.

(** A greedy run of a class, with any continuation that fails inside the
    run: the run is taken whole. *)
Lemma star_cls_whole (p : Z -> bool) (k : option Z -> text -> option text)
    (m : text) :
  forall fuel prev rest,
    forallb p m = true ->
    holds_at p (hd_error rest) = false ->
    (length (m ++ rest) <= fuel)%nat ->
    (forall m1 m2, m = m1 ++ m2 -> m2 <> [] ->
       k (last_of prev m1) (m2 ++ rest) = None) ->
    star_loop (run ucd (Cls p)) k fuel prev (m ++ rest)
    = k (last_of prev m) rest.
Proof.
  induction m as [|c m IH]; intros fuel prev rest Hm Hrest Hfuel Hk.
  - simpl. destruct fuel as [|fuel]; [reflexivity|]. simpl.
    destruct rest as [|x rest]; [reflexivity|]. simpl in Hrest.
    now rewrite Hrest.
  - simpl in Hm. apply andb_true_iff in Hm. destruct Hm as [Hc Hm].
    destruct fuel as [|fuel]; [simpl in Hfuel; lia|].
    cbn [app star_loop run]. rewrite Hc.
    replace (length (m ++ rest) <? length (c :: m ++ rest))%nat with true
      by (symmetry; apply Nat.ltb_lt; simpl; lia).
    rewrite IH; auto.
    + change (last_of prev (c :: m)) with (last_of (Some c) m).
      destruct (k (last_of (Some c) m) rest); [reflexivity|].
      apply (Hk [] (c :: m)); [reflexivity | discriminate].
    + simpl in Hfuel. lia.
    + intros m1 m2 E Hm2. apply (Hk (c :: m1) m2); [now rewrite E | exact Hm2].
Qed.

(** Between two digits no group starts and the number cannot end. *)
Lemma groups_none_inside (fuel : nat) (p : option Z) (y : Z) (s : text) :
  holds_at (is_digit ucd) p = true -> is_digit ucd y = true ->
  star_loop (run ucd (number_group ucd)) (at_end ucd) fuel p (y :: s) = None.
Proof.
  intros Hp Hy.
  assert (He : at_end ucd p (y :: s) = None).
  { unfold at_end. cbn [run]. unfold at_boundary. cbn [hd_error].
    change (word_at ucd (Some y)) with (is_word ucd y).
    rewrite (is_digit_word ucd y Hy).
    assert (Hw : word_at ucd p = true)
      by exact (holds_at_weaken _ (is_word ucd) p (is_digit_word ucd) Hp).
    now rewrite Hw. }
  destruct fuel as [|fuel]; [exact He|].
  cbn [star_loop number_group run]. now rewrite (digit_not_sep y Hy).
Qed.

Lemma at_end_after_word (p : option Z) (r : text) :
  word_at ucd p = true ->
  at_end ucd p r = if word_at ucd (hd_error r) then None else Some r.
Proof.
  intros Hp. unfold at_end. cbn [run]. unfold at_boundary. rewrite Hp.
  now destruct (word_at ucd (hd_error r)).
Qed.

Lemma star_loop_S
    (step : option Z -> text -> (option Z -> text -> option text) -> option text)
    (k : option Z -> text -> option text) (fuel : nat) (prev : option Z)
    (s : text) :
  star_loop step k (Datatypes.S fuel) prev s
  = match step prev s
            (fun prev' s' =>
               if (length s' <? length s)%nat
               then star_loop step k fuel prev' s' else None) with
    | Some rest => Some rest
    | None => k prev s
    end.
Proof. reflexivity. Qed.

Lemma run_group_cons (p : option Z) (x y : Z) (r1 : text)
    (k : option Z -> text -> option text) :
  run ucd (number_group ucd) p (x :: y :: r1) k
  = if is_sep x && is_digit ucd y
    then star_loop (run ucd (Cls (is_digit ucd))) k (length r1) (Some y) r1
    else None.
Proof. simpl. destruct (is_sep x), (is_digit ucd y); reflexivity. Qed.

Lemma run_group_short (p : option Z) (r : text)
    (k : option Z -> text -> option text) :
  (length r < 2)%nat -> run ucd (number_group ucd) p r k = None.
Proof.
  destruct r as [|x [|y r]]; simpl; intros H; try lia; auto.
  now destruct (is_sep x).
Qed.

(** A greedy run of digits with a continuation that fails inside it. *)
Lemma star_digits_whole (k : option Z -> text -> option text) (fuel : nat)
    (prev : option Z) (s : text) :
  (length s <= fuel)%nat ->
  holds_at (is_digit ucd) prev = true ->
  (forall p y s', holds_at (is_digit ucd) p = true -> is_digit ucd y = true ->
     k p (y :: s') = None) ->
  star_loop (run ucd (Cls (is_digit ucd))) k fuel prev s
  = k (last_of prev (take_while (is_digit ucd) s)) (drop_while (is_digit ucd) s).
Proof.
  intros Hf Hp Hk.
  pose proof (take_while_all (is_digit ucd) s) as Hm.
  transitivity (star_loop (run ucd (Cls (is_digit ucd))) k fuel prev
                  (take_while (is_digit ucd) s ++ drop_while (is_digit ucd) s)).
  { now rewrite <- take_drop_while. }
  apply star_cls_whole; auto.
  - apply drop_while_head.
  - now rewrite <- take_drop_while.
  - intros m1 m2 Em Hm2. destruct m2 as [|z m2]; [congruence|].
    rewrite Em, forallb_app in Hm. apply andb_true_iff in Hm.
    destruct Hm as [H1 H2]. simpl in H2. apply andb_true_iff in H2.
    simpl. apply Hk; [|tauto]. now apply holds_last_of.
Qed.

Lemma drop_while_length (p : Z -> bool) (s : text) :
  (length (drop_while p s) <= length s)%nat.
Proof.
  rewrite (take_drop_while p s) at 2. rewrite length_app. lia.
Qed.

(** The loop over the groups, from after a digit. *)
Lemma groups_loop (fuel : nat) : forall p r,
  holds_at (is_digit ucd) p = true ->
  star_loop (run ucd (number_group ucd)) (at_end ucd) fuel p r
  = groups_end ucd fuel r.
Proof.
  induction fuel as [|fuel IH]; intros p r Hp;
    assert (Hw : word_at ucd p = true)
      by exact (holds_at_weaken _ (is_word ucd) p (is_digit_word ucd) Hp).
  - simpl. now apply at_end_after_word.
  - rewrite star_loop_S.
    destruct r as [|x [|y r1]].
    + rewrite run_group_short by (simpl; lia). now apply at_end_after_word.
    + rewrite run_group_short by (simpl; lia). now apply at_end_after_word.
    + rewrite run_group_cons. cbn [groups_end].
      destruct (is_sep x && is_digit ucd y) eqn:Hxy;
        [|now apply at_end_after_word].
      apply andb_true_iff in Hxy. destruct Hxy as [Hx Hy].
      rewrite star_digits_whole; auto.
      * pose proof (drop_while_length (is_digit ucd) r1) as Hl.
        assert (Hlen : (length (drop_while (is_digit ucd) r1)
                        <? length (x :: y :: r1))%nat = true)
          by (apply Nat.ltb_lt; simpl; lia).
        rewrite Hlen, IH.
        -- destruct (groups_end ucd fuel (drop_while (is_digit ucd) r1));
             [reflexivity|].
           rewrite (at_end_after_word p _ Hw). cbn [hd_error].
           change (word_at ucd (Some x)) with (is_word ucd x).
           now rewrite (sep_not_word x Hx).
        -- apply holds_last_of; auto. apply take_while_all.
      * intros q z s' Hq Hz.
        destruct (length (z :: s') <? length (x :: y :: r1))%nat;
          [|reflexivity].
        now apply groups_none_inside.
Qed.

(** X15. The number pattern can match at a position only where a digit
    stands after a non-word character or at the start of the text.  It
    then takes the whole run of digits and every following group of a
    separator and digits, and ends there when the next character is not a
    word character or the text ends; when a word character follows, it
    gives back the last group and ends before its separator; and when
    there is no group to give back, there is no match. *)
Theorem number_match (prev : option Z) (s : text) :
  match_at ucd (number_pattern ucd) prev s
  = match s with
    | [] => None
    | d :: s0 =>
        if is_digit ucd d && negb (word_at ucd prev)
        then groups_end ucd (length (drop_while (is_digit ucd) s0))
               (drop_while (is_digit ucd) s0)
        else None
    end.
Proof.
  unfold match_at, number_pattern.
  change (run ucd
            (Cat Bnd
               (Cat (Plus (Cls (is_digit ucd)))
                  (Cat (Star (Cat (Cls is_sep) (Plus (Cls (is_digit ucd))))) Bnd)))
            prev s (fun _ rest => Some rest))
    with (if at_boundary ucd prev s
          then match s with
               | c :: s' =>
                   if is_digit ucd c
                   then star_loop (run ucd (Cls (is_digit ucd)))
                          (fun p1 s1 =>
                             star_loop (run ucd (number_group ucd)) (at_end ucd)
                               (length s1) p1 s1)
                          (length s') (Some c) s'
                   else None
               | [] => None
               end
          else None).
  destruct s as [|d s0].
  - now destruct (at_boundary ucd prev []).
  - unfold at_boundary. cbn [hd_error].
    change (word_at ucd (Some d)) with (is_word ucd d).
    destruct (is_digit ucd d) eqn:Hd.
    2:{ now destruct (xorb (word_at ucd prev) (is_word ucd d)). }
    rewrite (is_digit_word ucd d Hd).
    destruct (word_at ucd prev); [reflexivity|]. cbn [xorb andb negb].
    rewrite star_digits_whole; auto.
    + apply groups_loop. apply holds_last_of; auto. apply take_while_all.
    + intros q z s' Hq Hz. now apply groups_none_inside.
Qed.

End Number.
